(** * Secure File Organizer GUI: a shallow embedding of organizer_gui.py

    The program is a Tkinter front-end.  Its behaviour is process launching,
    queue draining, directory listing and log tailing, so the embedding is
    state passing over explicit models of the collaborators the code calls:
    - the file system is a tree of directories and regular files;
    - [subprocess.Popen] is an environment function from a command to its
      observable behaviour (it raises, or it starts a process that writes
      lines, possibly fails while being read, and exits with a code);
    - a [queue.Queue] is the list of its items, oldest first;
    - a [tk.Text] widget is the string it shows; message boxes and thread
      starts are recorded as effects, in program order.

    Characters are the 8-bit characters of [string]; Python's classification
    of characters (whitespace, upper case) is the one of the ASCII range.
    The content of a file is its bytes; a log is read in text mode, so what
    is shown is the content with its line endings translated, while offsets
    count bytes.  A content that cannot be decoded is a file whose reading
    raises. *)

From Stdlib Require Import ZArith Ascii String.
From stdpp Require Import base strings list sorting gmap pretty.

Local Open Scope string_scope.
Local Open Scope list_scope.
Local Open Scope stdpp_scope.

Local Set Warnings "-register-all".

(** ** Python string operations used by the program *)

(** [str.isspace] on one character. *)
Definition py_isspace (c : ascii) : bool :=
  match c with
  | "009" | "010" | "011" | "012" | "013"
  | "028" | "029" | "030" | "031" | " " => true
  | _ => false
  end%char.

Fixpoint lstrip (s : string) : string :=
  match s with
  | String c s' => if py_isspace c then lstrip s' else s
  | EmptyString => EmptyString
  end.

Definition rstrip (s : string) : string := String.rev (lstrip (String.rev s)).

(** [s.strip()] *)
Definition strip (s : string) : string := rstrip (lstrip s).

Definition lower_char (c : ascii) : ascii :=
  let n := nat_of_ascii c in
  if (65 <=? n)%nat && (n <=? 90)%nat then ascii_of_nat (n + 32) else c.

(** [s.lower()] *)
Fixpoint lower (s : string) : string :=
  match s with
  | String c s' => String (lower_char c) (lower s')
  | EmptyString => EmptyString
  end.

(** [s[n:]] *)
Fixpoint string_drop (n : nat) (s : string) : string :=
  match n, s with
  | O, _ => s
  | S n', String _ s' => string_drop n' s'
  | S _, EmptyString => EmptyString
  end.

(** The line feed, written [\n] in the program. *)
Definition nl : string := String "010"%char "".

(** The carriage return and the line feed as characters. *)
Definition CR : ascii := "013"%char.
Definition LF : ascii := "010"%char.

(** What text mode ([open(p, 'r')], universal newlines) makes of the bytes
    read up to the end of a file: a carriage return followed by a line feed
    becomes one line feed, and any other carriage return, the last byte
    included, becomes a line feed. *)
Fixpoint universal_newlines (s : string) : string :=
  match s with
  | EmptyString => EmptyString
  | String c s' =>
      if bool_decide (c = CR) then
        match s' with
        | String c' s'' =>
            if bool_decide (c' = LF) then String LF (universal_newlines s'')
            else String LF (universal_newlines s')
        | EmptyString => String LF EmptyString
        end
      else String c (universal_newlines s')
  end.

(** [fh.seek(pos); fh.read()] on a file opened in text mode: the bytes from
    [pos] to the end, with the line endings translated. *)
Definition read_text (pos : nat) (content : string) : string :=
  universal_newlines (string_drop pos content).

(** [s.endswith(suffix)] *)
Definition endswith (s suffix : string) : bool :=
  (String.length suffix <=? String.length s)%nat &&
  String.eqb (string_drop (String.length s - String.length suffix) s) suffix.

(** [sep.join(parts)] *)
Definition join (sep : string) (parts : list string) : string :=
  String.concat sep parts.

(** ** POSIX paths *)

Definition slash : ascii := "/"%char.

Definition starts_with_slash (s : string) : bool :=
  match s with
  | String c _ => bool_decide (c = slash)
  | EmptyString => false
  end.

(** [os.path.join(d, name)] for two arguments. *)
Definition path_join (d name : string) : string :=
  if starts_with_slash name then name
  else if bool_decide (d = "") || endswith d "/" then d +:+ name
  else d +:+ "/" +:+ name.

Fixpoint basename_from (acc s : string) : string :=
  match s with
  | EmptyString => acc
  | String c s' =>
      if bool_decide (c = slash) then basename_from "" s'
      else basename_from (acc +:+ String c "") s'
  end.

(** [os.path.basename(p)]: what follows the last slash. *)
Definition basename (p : string) : string := basename_from "" p.

Definition flush_component (cur : string) : list string :=
  if bool_decide (cur = "") then [] else [cur].

Fixpoint split_path_from (cur s : string) : list string :=
  match s with
  | EmptyString => flush_component cur
  | String c s' =>
      if bool_decide (c = slash)
      then flush_component cur ++ split_path_from "" s'
      else split_path_from (cur +:+ String c "") s'
  end.

(** The components of a path; repeated and trailing slashes are ignored, as
    the kernel's path resolution does.  Paths are resolved from the root of
    the modelled tree. *)
Definition split_path (p : string) : list string := split_path_from "" p.

(** ** The file system *)

Inductive node : Type :=
  | File (readable : bool) (content : string)
  | Dir (entries : list (string * node)).

Fixpoint find_entry (name : string) (es : list (string * node)) : option node :=
  match es with
  | [] => None
  | (n, x) :: es' => if bool_decide (n = name) then Some x else find_entry name es'
  end.

Fixpoint set_entry (name : string) (x : node) (es : list (string * node))
  : list (string * node) :=
  match es with
  | [] => [(name, x)]
  | (n, y) :: es' =>
      if bool_decide (n = name) then (n, x) :: es' else (n, y) :: set_entry name x es'
  end.

Fixpoint resolve (comps : list string) (n : node) : option node :=
  match comps with
  | [] => Some n
  | c :: cs =>
      match n with
      | Dir es =>
          match find_entry c es with
          | Some child => resolve cs child
          | None => None
          end
      | File _ _ => None
      end
  end.

(** Looking a path up; the empty path names nothing. *)
Definition lookup_path (fs : node) (p : string) : option node :=
  if bool_decide (p = "") then None else resolve (split_path p) fs.

(** [os.path.isdir] *)
Definition isdir (fs : node) (p : string) : bool :=
  match lookup_path fs p with
  | Some (Dir _) => true
  | _ => false
  end.

(** [os.path.isfile] *)
Definition isfile (fs : node) (p : string) : bool :=
  match lookup_path fs p with
  | Some (File _ _) => true
  | _ => false
  end.

(** [os.listdir]: the names in the directory, in the directory's own order;
    [None] when the call raises. *)
Definition listdir (fs : node) (p : string) : option (list string) :=
  match lookup_path fs p with
  | Some (Dir es) => Some (fst <$> es)
  | _ => None
  end.

(** [open(p, 'r')] followed by reading: the whole content of a readable
    regular file, [None] when opening or reading raises. *)
Definition read_file (fs : node) (p : string) : option string :=
  match lookup_path fs p with
  | Some (File true content) => Some content
  | _ => None
  end.

(** A fresh chain of nested directories. *)
Fixpoint mkdir_chain (cs : list string) : node :=
  match cs with
  | [] => Dir []
  | c :: cs' => Dir [(c, mkdir_chain cs')]
  end.

(** [os.makedirs(p, exist_ok=True)] below a node: existing directories are
    kept, missing ones are created, and a regular file on the way makes the
    call raise ([None]). *)
Fixpoint makedirs_at (cs : list string) (n : node) : option node :=
  match n with
  | File _ _ => None
  | Dir es =>
      match cs with
      | [] => Some n
      | c :: cs' =>
          match find_entry c es with
          | None => Some (Dir (es ++ [(c, mkdir_chain cs')]))
          | Some child =>
              match makedirs_at cs' child with
              | Some child' => Some (Dir (set_entry c child' es))
              | None => None
              end
          end
      end
  end.

Definition makedirs (fs : node) (p : string) : option node :=
  if bool_decide (p = "") then None else makedirs_at (split_path p) fs.

(** ** Exceptions *)

(** The exception classes the modelled calls can raise.  All but
    [KeyboardInterrupt] and [SystemExit] derive from [Exception]; of these
    only [FileNotFoundError] is matched by [except FileNotFoundError]. *)
Inductive exn_class : Type :=
  | FileNotFoundError
  | PermissionError
  | OSError
  | IndexError
  | ValueError
  | UnicodeDecodeError
  | KeyboardInterrupt
  | SystemExit.

Record exn : Type := mk_exn { exn_cls : exn_class; exn_msg : string }.

Definition is_FileNotFoundError (e : exn) : bool :=
  match exn_cls e with
  | FileNotFoundError => true
  | _ => false
  end.

Definition is_Exception (e : exn) : bool :=
  match exn_cls e with
  | KeyboardInterrupt | SystemExit => false
  | _ => true
  end.

(** The result of a call that may raise. *)
Inductive outcome (A : Type) : Type :=
  | Return (a : A)
  | Raise (e : exn).
Arguments Return {A} a.
Arguments Raise {A} e.

(** ** Process Runner *)

(** What travels on the relay queue: a chunk of text, the [None] sentinel,
    or the tuple [("__RC__", rc)]. *)
Inductive item : Type :=
  | Chunk (text : string)
  | Sentinel
  | RC (rc : Z).

(** A started process, as [run_process] observes it: the lines iterating
    over [proc.stdout] yields, the exception (if any) raised afterwards by
    the iteration, [close] or [wait], and the exit status. *)
Record process : Type := mk_process {
  stdout_lines : list string;
  stream_error : option exn;
  returncode : Z
}.

Inductive popen_outcome : Type :=
  | Started (p : process)
  | LaunchRaises (e : exn).

(** [run_process(cmd_list, out_queue)]: the queue after the call, and the
    value returned or the exception that leaves the function. *)
Definition run_process (Popen : list string → popen_outcome)
    (cmd_list : list string) (out_queue : list item)
  : list item * outcome Z :=
  match Popen cmd_list with
  | LaunchRaises e =>
      if is_FileNotFoundError e then
        match cmd_list with
        | exe :: _ =>
            (out_queue ++
               [Chunk ("[ERROR] Script not found: " +:+ exe +:+ nl +:+ exn_msg e +:+ nl)],
             Return 127%Z)
        | [] => (out_queue, Raise (mk_exn IndexError "list index out of range"))
        end
      else (out_queue, Raise e)
  | Started proc =>
      let q := out_queue ++ (Chunk <$> stdout_lines proc) in
      match stream_error proc with
      | None => (q, Return (returncode proc))
      | Some e =>
          if is_Exception e then
            (q ++ [Chunk ("[ERROR] Running command failed: " +:+ exn_msg e +:+ nl)],
             Return 1%Z)
          else (q, Raise e)
      end
  end.

(** The [worker] closure of [_background_run_and_stream]: everything the
    thread puts on [q], and the exception that ends the thread, if any. *)
Definition worker (Popen : list string → popen_outcome)
    (cmd : list string) (q : list item) : list item * option exn :=
  match run_process Popen cmd q with
  | (q1, Return rc) => (q1 ++ [Sentinel; RC rc], None)
  | (q1, Raise e) => (q1, Some e)
  end.

(** ** Polling Drain Loop *)

(** What the UI thread does to the display and the callback. *)
Inductive ui_event : Type :=
  | Insert (text : string)
  | Complete (rc : Z).

Inductive poll_status : Type :=
  | Rescheduled
  | Finished.

(** One run of the [poll] closure over the items present in the queue:
    the items left, the widget text, the UI events in order, and whether
    [poll] rescheduled itself. *)
Fixpoint poll (q : list item) (text_widget : string) (evs : list ui_event)
  : list item * string * list ui_event * poll_status :=
  match q with
  | [] => (q, text_widget, evs, Rescheduled)
  | RC rc :: q' => (q', text_widget, evs ++ [Complete rc], Finished)
  | Sentinel :: q' => poll q' text_widget evs
  | Chunk s :: q' => poll q' (text_widget +:+ s) (evs ++ [Insert s])
  end.

(** [clear_output_text], and the same [delete("1.0", tk.END)] on the other
    text widgets. *)
Definition clear_output_text (text_out : string) : string := "".

(** The worker thread and the UI thread around one relay queue. *)
Record pipeline : Type := mk_pipeline {
  pending : list item;
  relay : list item;
  display : string;
  events : list ui_event;
  polling : bool
}.

(** A put that lands while [poll] is draining commutes with the gets before
    it (they take from the head of a queue that is not empty), so a run of
    [poll] is taken as one step and the puts as the steps between. *)
Inductive action : Type :=
  | WorkerPut
  | Tick
  | ClearOutput.

Definition step (a : action) (s : pipeline) : pipeline :=
  match a with
  | WorkerPut =>
      match pending s with
      | [] => s
      | i :: rest =>
          mk_pipeline rest (relay s ++ [i]) (display s) (events s) (polling s)
      end
  | Tick =>
      if polling s then
        match poll (relay s) (display s) (events s) with
        | (q', text', evs', Rescheduled) => mk_pipeline (pending s) q' text' evs' true
        | (q', text', evs', Finished) => mk_pipeline (pending s) q' text' evs' false
        end
      else s
  | ClearOutput =>
      mk_pipeline (pending s) (relay s) (clear_output_text (display s))
        (events s) (polling s)
  end.

Definition run (sched : list action) (s : pipeline) : pipeline :=
  foldl (λ s a, step a s) s sched.

(** [_background_run_and_stream] right after [th.start()] and
    [self.after(100, poll)]: nothing is on the queue yet, the worker has its
    puts ahead of it. *)
Definition _background_run_and_stream (Popen : list string → popen_outcome)
    (cmd : list string) (text_widget : string) : pipeline :=
  mk_pipeline (fst (worker Popen cmd [])) [] text_widget [] true.

(** ** Effects of the UI callbacks *)

Inductive effect : Type :=
  | ShowWarning (title body : string)
  | ShowError (title body : string)
  | MakeDirs (path : string)
  | ThreadStart (cmd : list string)
  | After (ms : nat).

Definition is_dialog (e : effect) : bool :=
  match e with
  | ShowWarning _ _ | ShowError _ _ => true
  | _ => false
  end.

Definition is_launch (e : effect) : bool :=
  match e with
  | ThreadStart _ => true
  | _ => false
  end.

(** ** Organizer tab *)

(** [ORGANIZE_SCRIPT = BASE_DIR / "organize_files.sh"], as a string. *)
Definition ORGANIZE_SCRIPT (BASE_DIR : string) : string :=
  path_join BASE_DIR "organize_files.sh".

Record organizer_tab : Type := mk_organizer_tab {
  src_var : string;
  out_var : string;
  run_btn_enabled : bool;
  status_var : string;
  progress_running : bool;
  text_out : string
}.

Record callback_result (S : Type) : Type := mk_result {
  res_state : S;
  res_fs : node;
  res_effects : list effect;
  res_raised : option exn
}.
Arguments mk_result {S} _ _ _ _.
Arguments res_state {S} _.
Arguments res_fs {S} _.
Arguments res_effects {S} _.
Arguments res_raised {S} _.

(** [run_organizer]: the tab and the file system after the callback, the
    effects in program order, and the exception that leaves the callback
    when [os.makedirs] raises. *)
Definition run_organizer (BASE_DIR : string) (fs : node) (t : organizer_tab)
  : callback_result organizer_tab :=
  let src := strip (src_var t) in
  let out := strip (out_var t) in
  if bool_decide (src = "") || bool_decide (out = "") then
    mk_result t fs
      [ShowWarning "Missing paths" "Please select both source and output folders."]
      None
  else if negb (isdir fs src) then
    mk_result t fs
      [ShowError "Invalid source" ("Source folder does not exist: " +:+ src)]
      None
  else
    match makedirs fs out with
    | None => mk_result t fs [] (Some (mk_exn OSError out))
    | Some fs' =>
        let cmd := [ORGANIZE_SCRIPT BASE_DIR; src; out] in
        mk_result
          (mk_organizer_tab (src_var t) (out_var t) false "Running organizer..."
             true (clear_output_text (text_out t)))
          fs'
          [MakeDirs out; ThreadStart cmd]
          None
    end.

(** ** Backup Restorer: listing *)

(** The order of [sorted(..., reverse=True)] on strings: larger first. *)
Definition str_ge (a b : string) : Prop := String.le b a.

Global Instance str_ge_dec : RelDecision str_ge.
Proof. intros a b. unfold str_ge. apply _. Defined.

(** [sorted(l, reverse=True)] *)
Definition sorted_reverse (l : list string) : list string :=
  merge_sort str_ge l.

(** [refresh_backups]: the content of the list box after the call. *)
Definition refresh_backups (fs : node) (back_dir_var : string)
    (backups_list : list string) : list string :=
  let d := strip back_dir_var in
  let backups_list := @nil string in
  if bool_decide (d = "") then backups_list
  else
    let backups_dir := path_join d "backups" in
    if negb (isdir fs backups_dir) then backups_list
    else
      let files := sorted_reverse (default [] (listdir fs backups_dir)) in
      backups_list ++ filter (λ f, endswith (lower f) ".zip" = true) files.

(** ** Live Log Tailer *)

Definition LOG_POLL_MS : nat := 2000.

Record logs_tab : Type := mk_logs_tab {
  log_dir_var : string;
  text_logs : string;
  _live_logs_running : bool;
  _live_log_paths : list string;
  _tail_positions : gmap string nat
}.

(** The section a file contributes to a tick. *)
Definition section_of (p data : string) : string :=
  "--- " +:+ basename p +:+ " ---" +:+ nl +:+ data +:+ nl.

(** The body of the [for] loop of [_do_tail] for one path: a file that
    cannot be opened or read leaves [parts] and the positions as they are;
    otherwise the text from the recorded position on is read, in text mode,
    and the position becomes what [fh.tell()] gives after reading to the
    end: the length of the file in bytes, or the position sought when the
    file ends before it. *)
Definition tail_one (fs : node) (acc : list string * gmap string nat)
    (p : string) : list string * gmap string nat :=
  match read_file fs p with
  | None => acc
  | Some content =>
      let pos := default 0 (acc.2 !! p) in
      let data := read_text pos content in
      ((if bool_decide (data = "") then acc.1 else acc.1 ++ [section_of p data]),
       <[p := Nat.max pos (String.length content)]> acc.2)
  end.

(** [_do_tail]: one tick. *)
Definition _do_tail (fs : node) (t : logs_tab) : logs_tab * list effect :=
  if negb (_live_logs_running t) then (t, [])
  else
    let r := foldl (tail_one fs) ([], _tail_positions t) (_live_log_paths t) in
    (mk_logs_tab (log_dir_var t)
       (match r.1 with
        | [] => text_logs t
        | _ => text_logs t +:+ join nl r.1
        end)
       (_live_logs_running t) (_live_log_paths t) r.2,
     [After LOG_POLL_MS]).

(** [start_live_logs] *)
Definition start_live_logs (fs : node) (t : logs_tab) : logs_tab * list effect :=
  let d := strip (log_dir_var t) in
  if bool_decide (d = "") then
    (t, [ShowWarning "Select directory"
           "Select organized directory to read logs from."])
  else
    let organizer_log := path_join d "organizer.log" in
    let integrity_log := path_join d "integrity_check.log" in
    let paths :=
      (if isfile fs organizer_log then [organizer_log] else []) ++
      (if isfile fs integrity_log then [integrity_log] else []) in
    match paths with
    | [] => (t, [ShowWarning "No logs"
                   "No log files found in the selected directory."])
    | _ =>
        _do_tail fs
          (mk_logs_tab (log_dir_var t) "" true paths
             (list_to_map ((λ p, (p, 0)) <$> paths)))
    end.

(** [stop_live_logs] *)
Definition stop_live_logs (t : logs_tab) : logs_tab :=
  mk_logs_tab (log_dir_var t) (text_logs t) false (_live_log_paths t)
    (_tail_positions t).

(** Ticks over successive states of the file system, one state per tick. *)
Definition tail_ticks (fss : list node) (t : logs_tab) : logs_tab :=
  foldl (λ t fs, (_do_tail fs t).1) t fss.

(** The recorded offset of a path, as [_tail_positions.get(p, 0)]. *)
Definition offset_of (t : logs_tab) (p : string) : nat :=
  default 0 (_tail_positions t !! p).


(** ** Vocabulary of the statements *)

(** The drain seen from the items: what consuming a run of items appends and
    calls, up to and including the first completion tuple. *)
Fixpoint ui_of (q : list item) : list ui_event :=
  match q with
  | [] => []
  | RC rc :: _ => [Complete rc]
  | Sentinel :: q' => ui_of q'
  | Chunk s :: q' => Insert s :: ui_of q'
  end.

Fixpoint text_of (q : list item) : string :=
  match q with
  | [] => ""
  | RC _ :: _ => ""
  | Sentinel :: q' => text_of q'
  | Chunk s :: q' => s +:+ text_of q'
  end.

Fixpoint has_rc (q : list item) : bool :=
  match q with
  | [] => false
  | RC _ :: _ => true
  | _ :: q' => has_rc q'
  end.

Fixpoint after_rc (q : list item) : list item :=
  match q with
  | [] => []
  | RC _ :: q' => q'
  | _ :: q' => after_rc q'
  end.

(** The text the [Insert] events of a trace put on the display. *)
Fixpoint inserted_text (evs : list ui_event) : string :=
  match evs with
  | [] => ""
  | Insert s :: evs' => s +:+ inserted_text evs'
  | Complete _ :: evs' => inserted_text evs'
  end.

(** [''.join(chunks)] *)
Definition concat_text (chunks : list string) : string := join "" chunks.

(** Everything the worker puts when [run_process] returns [rc] after
    enqueuing [chunks], and the UI events a complete drain of it gives. *)
Definition production (chunks : list string) (rc : Z) : list item :=
  (Chunk <$> chunks) ++ [Sentinel; RC rc].

Definition full_trace (chunks : list string) (rc : Z) : list ui_event :=
  (Insert <$> chunks) ++ [Complete rc].

(** What holds of the pipeline of one invocation at every moment: while
    [poll] is scheduled, the consumed items hold no completion tuple and the
    events so far, continued by a drain of what is queued and pending, are
    the full trace; once [poll] has stopped, the trace is complete and
    nothing is left. *)
Definition pipeline_inv (chunks : list string) (rc : Z) (s : pipeline) : Prop :=
  if polling s then
    (∃ d, has_rc d = false ∧ d ++ relay s ++ pending s = production chunks rc) ∧
    events s ++ ui_of (relay s ++ pending s) = full_trace chunks rc
  else events s = full_trace chunks rc ∧ relay s = [] ∧ pending s = [].

(** A launch that fails because the script is there but not executable. *)
Definition Popen_not_executable : list string → popen_outcome :=
  λ _, LaunchRaises
         (mk_exn PermissionError
            "[Errno 13] Permission denied: '/home/user/organize_files.sh'").

Definition organize_cmd : list string :=
  ["/home/user/organize_files.sh"; "/home/user/in"; "/home/user/out"].

(** A file system whose directory [/logs] holds [organizer.log] with the
    given content, and the Logs tab pointed at that directory before any
    tailing. *)
Definition fs_with_log (content : string) : node :=
  Dir [("logs", Dir [("organizer.log", File true content)])].

Definition logs_tab_idle : logs_tab := mk_logs_tab "/logs" "" false [] ∅.

(** The paths [start_live_logs] decides to tail. *)
Definition log_paths_at_start (fs : node) (t : logs_tab) : list string :=
  let d := strip (log_dir_var t) in
  (if isfile fs (path_join d "organizer.log")
   then [path_join d "organizer.log"] else []) ++
  (if isfile fs (path_join d "integrity_check.log")
   then [path_join d "integrity_check.log"] else []).

(** ** Concrete inputs *)

(** A process that writes two lines and exits with 0. *)
Definition Popen_two_lines : list string → popen_outcome :=
  λ _, Started (mk_process ["moved a.txt" +:+ nl; "moved b.txt" +:+ nl] None 0).

(** A process whose output stream fails after one line. *)
Definition Popen_read_error : list string → popen_outcome :=
  λ _, Started
         (mk_process ["moved a.txt" +:+ nl]
            (Some (mk_exn OSError "[Errno 5] Input/output error")) 0).

Definition fs_backups : node :=
  Dir [("data",
        Dir [("backups",
              Dir [("backup_2023.zip", File true "");
                   ("notes.txt", File true "");
                   ("backup_2024.zip", File true "")])])].

Definition fs_home : node :=
  Dir [("home", Dir [("user", Dir [("in", Dir [("a.txt", File true "a")])])])].

Definition fs_no_logs : node := Dir [("logs", Dir [])].

Definition organizer_tab_ready : organizer_tab :=
  mk_organizer_tab "/home/user/in" "/home/user/out/sorted" true "Idle" false "old".

Definition organizer_tab_blank : organizer_tab :=
  mk_organizer_tab "   " "/home/user/out" true "Idle" false "old".

Definition pipeline_two_queued : pipeline :=
  mk_pipeline [] [Chunk "a"; Chunk "b"] "old" [] true.

(** The Logs tab once tailing has started on [fs_with_log "X"]. *)
Definition logs_tab_tailing : logs_tab :=
  (start_live_logs (fs_with_log "X") logs_tab_idle).1.

(** ** Completion callbacks *)

(** What a callback asks of the toolkit and the system beyond [effect]:
    information boxes, the two questions of the restore dialog, handing a
    path to the desktop ([subprocess.Popen(["xdg-open", path])], or
    [os.startfile(path)] on win32), and the call of
    [ZipFile(backup_path).extractall(dest)]. *)
Inductive notice : Type :=
  | Basic (e : effect)
  | ShowInfo (title body : string)
  | AskDirectory (title : string)
  | AskYesNo (title body : string)
  | StartFile (path : string)
  | Spawn (cmd : list string)
  | ExtractAll (backup_path dest : string).

Definition is_extract (n : notice) : bool :=
  match n with
  | ExtractAll _ _ => true
  | _ => false
  end.

(** [_organizer_complete] *)
Definition _organizer_complete (returncode : Z) (t : organizer_tab)
  : organizer_tab * list notice :=
  if bool_decide (returncode = 0%Z) then
    (mk_organizer_tab (src_var t) (out_var t) true
       "Organizer completed successfully" false (text_out t),
     [ShowInfo "Done" "Organizer finished successfully."])
  else
    (mk_organizer_tab (src_var t) (out_var t) true
       "Organizer finished with errors" false (text_out t),
     [Basic (ShowWarning "Completed with errors"
               ("Organizer returned code " +:+ pretty returncode +:+ ". Check logs."))]).

(** The organizer tab under the events of a drain started by
    [run_organizer]: the text widget is [text_out] and the callback is
    [_organizer_complete]. *)
Definition organizer_on_event (t : organizer_tab) (ev : ui_event) : organizer_tab :=
  match ev with
  | Insert s =>
      mk_organizer_tab (src_var t) (out_var t) (run_btn_enabled t) (status_var t)
        (progress_running t) (text_out t +:+ s)
  | Complete rc => (_organizer_complete rc t).1
  end.

(** ** Integrity tab *)

(** [VERIFY_SCRIPT = BASE_DIR / "verify_integrity.sh"], as a string. *)
Definition VERIFY_SCRIPT (BASE_DIR : string) : string :=
  path_join BASE_DIR "verify_integrity.sh".

Record integrity_tab : Type := mk_integrity_tab {
  verify_dir_var : string;
  verify_btn_enabled : bool;
  integrity_status : string;
  integrity_progress_running : bool;
  text_verify : string
}.

(** [run_integrity] *)
Definition run_integrity (BASE_DIR : string) (fs : node) (t : integrity_tab)
  : integrity_tab * list effect :=
  let d := strip (verify_dir_var t) in
  if bool_decide (d = "") then
    (t, [ShowWarning "Missing path" "Select organized directory to verify."])
  else if negb (isdir fs d) then
    (t, [ShowError "Invalid directory" ("Directory does not exist: " +:+ d)])
  else
    (mk_integrity_tab (verify_dir_var t) false "Running integrity check..." true "",
     [ThreadStart [VERIFY_SCRIPT BASE_DIR; d]]).

(** [_integrity_complete] *)
Definition _integrity_complete (returncode : Z) (t : integrity_tab)
  : integrity_tab * list notice :=
  if bool_decide (returncode = 0%Z) then
    (mk_integrity_tab (verify_dir_var t) true "Integrity OK" false (text_verify t),
     [ShowInfo "Integrity" "All files match their checksums."])
  else
    (mk_integrity_tab (verify_dir_var t) true "Integrity FAILED" false (text_verify t),
     [Basic (ShowWarning "Integrity" "Some files failed verification. Check logs.")]).

(** The integrity tab under the events of a drain started by
    [run_integrity]; the notices of the callback are collected. *)
Definition integrity_on_event (acc : integrity_tab * list notice) (ev : ui_event)
  : integrity_tab * list notice :=
  match ev with
  | Insert s =>
      (mk_integrity_tab (verify_dir_var acc.1) (verify_btn_enabled acc.1)
         (integrity_status acc.1) (integrity_progress_running acc.1)
         (text_verify acc.1 +:+ s),
       acc.2)
  | Complete rc =>
      ((_integrity_complete rc acc.1).1, acc.2 ++ (_integrity_complete rc acc.1).2)
  end.

(** [open_checksum_log]; [win32] is [sys.platform == "win32"]. *)
Definition open_checksum_log (win32 : bool) (fs : node) (verify_dir_var : string)
  : list notice :=
  let d := strip verify_dir_var in
  if bool_decide (d = "") then
    [Basic (ShowWarning "Missing path" "Select organized directory first.")]
  else
    let chk := path_join d "organized_files_checksum.log" in
    if negb (isfile fs chk) then
      [Basic (ShowError "Not found" ("Checksum log not found: " +:+ chk))]
    else if win32 then [StartFile chk]
    else [Spawn ["xdg-open"; chk]].

(** ** Backup Restorer: restoring *)

(** [restore_selected_backup].  [curselection] is the tuple the list box
    returns, [askdirectory] and [askyesno] are the answers of the two
    dialogs (they are asked only where the code asks them), and
    [extractall backup_path dest] is what opening and extracting the archive
    raises, if anything.  The result is what the callback asks for, in
    order, and the exception that leaves it. *)
Definition restore_selected_backup (fs : node) (back_dir_var : string)
    (backups_list : list string) (curselection : list nat)
    (askdirectory : string) (askyesno : bool)
    (extractall : string → string → option exn)
  : list notice * option exn :=
  match curselection with
  | [] => ([Basic (ShowWarning "Select backup" "Choose a backup to restore.")], None)
  | i :: _ =>
      let name := default "" (backups_list !! i) in
      let d := strip back_dir_var in
      let backups_dir := path_join d "backups" in
      let backup_path := path_join backups_dir name in
      if negb (isfile fs backup_path) then
        ([Basic (ShowError "Not found" backup_path)], None)
      else
        let ask1 := AskDirectory "Select folder to restore backup into" in
        let dest := askdirectory in
        if bool_decide (dest = "") then ([ask1], None)
        else
          let ask2 :=
            AskYesNo "Confirm restore"
              ("Restore " +:+ name +:+ " into " +:+ dest +:+
               "? This may overwrite files.") in
          if negb askyesno then ([ask1; ask2], None)
          else
            match extractall backup_path dest with
            | None =>
                ([ask1; ask2; ExtractAll backup_path dest;
                  ShowInfo "Restored" ("Backup restored into " +:+ dest)], None)
            | Some e =>
                if is_Exception e then
                  ([ask1; ask2; ExtractAll backup_path dest;
                    Basic (ShowError "Restore failed"
                             ("Failed to restore: " +:+ exn_msg e))], None)
                else ([ask1; ask2; ExtractAll backup_path dest], Some e)
            end
  end.

(** ** Live Log Tailer: the view and the timer *)


(** The Logs tab with the [_do_tail] callbacks that [self.after] holds. *)
Record tailer : Type := mk_tailer {
  tab : logs_tab;
  timers : nat
}.

Definition is_after (e : effect) : bool :=
  match e with
  | After _ => true
  | _ => false
  end.

(** How many callbacks the effects of a call hand to [self.after]. *)
Definition scheduled (es : list effect) : nat :=
  length (filter (λ e, is_after e = true) es).

(** The Start button, the Stop button, and one held callback coming due. *)
Definition press_start (fs : node) (s : tailer) : tailer :=
  let r := start_live_logs fs (tab s) in
  mk_tailer r.1 (timers s + scheduled r.2).

Definition press_stop (s : tailer) : tailer :=
  mk_tailer (stop_live_logs (tab s)) (timers s).

Definition fire (fs : node) (s : tailer) : tailer :=
  match timers s with
  | O => s
  | S n =>
      let r := _do_tail fs (tab s) in
      mk_tailer r.1 (n + scheduled r.2)
  end.

(** Firing over successive states of the file system. *)
Definition fires (fss : list node) (s : tailer) : tailer :=
  foldl (λ s fs, fire fs s) s fss.

(** ** More vocabulary *)

(** A name without a slash: the name of a directory entry. *)
Fixpoint no_slash (s : string) : bool :=
  match s with
  | EmptyString => true
  | String c s' => negb (bool_decide (c = slash)) && no_slash s'
  end.

(** A file growing by appends: its contents after each append. *)
Fixpoint grown (c : string) (ds : list string) : list string :=
  match ds with
  | [] => []
  | d :: ds' => (c +:+ d) :: grown (c +:+ d) ds'
  end.

(** The sections a tailed file shows when read in the given pieces, one
    piece per tick; a tick that finds nothing new shows nothing. *)
Fixpoint shown_sections (p : string) (ds : list string) : string :=
  match ds with
  | [] => ""
  | d :: ds' =>
      (if bool_decide (d = "") then "" else section_of p d) +:+ shown_sections p ds'
  end.

(** The launch of the organizer fails because the script is missing. *)
Definition Popen_missing : list string → popen_outcome :=
  λ _, LaunchRaises
         (mk_exn FileNotFoundError "[Errno 2] No such file or directory").

Definition integrity_tab_ready : integrity_tab :=
  mk_integrity_tab " /home/user/in " true "Idle" false "old".

(** A backups directory holding an archive and a directory named like one. *)
Definition fs_backups_mixed : node :=
  Dir [("data",
        Dir [("backups",
              Dir [("backup_2024.zip", File true "PK");
                   ("old.zip", Dir [])]);
             ("organized_files_checksum.log", File true "")])].

(** The backups directory of [fs_backups], listed in another order. *)
Definition fs_backups_reordered : node :=
  Dir [("data",
        Dir [("backups",
              Dir [("notes.txt", File true "");
                   ("backup_2024.zip", File true "");
                   ("backup_2023.zip", File true "")])])].

(** An extraction that succeeds, and one that finds a corrupt archive. *)
Definition extractall_ok : string → string → option exn := λ _ _, None.

Definition extractall_corrupt : string → string → option exn :=
  λ _ _, Some (mk_exn ValueError "File is not a zip file").

Definition tailer_idle : tailer := mk_tailer logs_tab_idle 0.

(** Log contents with carriage returns: the seven bytes X CR LF Y CR Z LF,
    and a line whose CRLF is written in two halves. *)
Definition log_mixed_endings : string :=
  "X" +:+ String CR (String LF "Y") +:+ String CR ("Z" +:+ String LF "").

Definition log_half_line : string := "A" +:+ String CR "".

Definition log_rest_of_line : string := String LF "B".

(** * Properties *)

(** ** Strings *)

Lemma str_app_cons c s t : String c s +:+ t = String c (s +:+ t).
Proof. reflexivity. Qed.

Lemma str_app_nil_r s : s +:+ "" = s.
Proof. induction s as [|c s IH]; [done|]. by rewrite str_app_cons, IH. Qed.

Lemma str_app_assoc s t u : (s +:+ t) +:+ u = s +:+ (t +:+ u).
Proof. induction s as [|c s IH]; [done|]. by rewrite !str_app_cons, IH. Qed.

Lemma str_length_app s t :
  String.length (s +:+ t) = String.length s + String.length t.
Proof. induction s as [|c s IH]; [done|]. rewrite str_app_cons. simpl. by rewrite IH. Qed.

Lemma string_drop_app s t : string_drop (String.length s) (s +:+ t) = t.
Proof. induction s as [|c s IH]; [by destruct t|]. exact IH. Qed.

Lemma string_drop_0 s : string_drop 0 s = s.
Proof. by destruct s. Qed.

Lemma universal_newlines_nil s : universal_newlines s = "" ↔ s = "".
Proof.
  split; [|by intros ->]. destruct s as [|c s]; [done|]. simpl.
  destruct (bool_decide (c = CR)); [|done].
  destruct s as [|c' s]; [done|]. by destruct (bool_decide (c' = LF)).
Qed.

Lemma read_text_nil pos c : read_text pos c = "" ↔ string_drop pos c = "".
Proof. apply universal_newlines_nil. Qed.

Lemma read_text_0 c : read_text 0 c = universal_newlines c.
Proof. unfold read_text. by rewrite string_drop_0. Qed.

Lemma read_text_app c d : read_text (String.length c) (c +:+ d) = universal_newlines d.
Proof. unfold read_text. by rewrite string_drop_app. Qed.

Lemma string_drop_ge n s : (String.length s ≤ n)%nat → string_drop n s = "".
Proof.
  revert s. induction n as [|n IH]; intros [|c s] Hn; simpl in *; try done; try lia.
  apply IH. lia.
Qed.

(** ** Process Runner *)

Section runner.
Variable Popen : list string → popen_outcome.

Lemma run_process_not_found exe args e q :
  Popen (exe :: args) = LaunchRaises e →
  is_FileNotFoundError e = true →
  run_process Popen (exe :: args) q =
    (q ++ [Chunk ("[ERROR] Script not found: " +:+ exe +:+ nl +:+ exn_msg e +:+ nl)],
     Return 127%Z).
Proof. intros HP He. unfold run_process. by rewrite HP, He. Qed.

Lemma run_process_launch_escapes cmd e q :
  Popen cmd = LaunchRaises e →
  is_FileNotFoundError e = false →
  run_process Popen cmd q = (q, Raise e).
Proof. intros HP He. unfold run_process. by rewrite HP, He. Qed.

Lemma run_process_exit cmd proc q :
  Popen cmd = Started proc →
  stream_error proc = None →
  run_process Popen cmd q = (q ++ (Chunk <$> stdout_lines proc), Return (returncode proc)).
Proof. intros HP He. unfold run_process. by rewrite HP, He. Qed.
End runner.

(** ** Polling Drain Loop *)

Lemma poll_spec q w evs :
  poll q w evs =
    (if has_rc q then after_rc q else [],
     w +:+ text_of q, evs ++ ui_of q,
     if has_rc q then Finished else Rescheduled).
Proof.
  revert w evs. induction q as [|[s| |rc] q IH]; intros w evs; simpl.
  - by rewrite str_app_nil_r, app_nil_r.
  - rewrite IH. by rewrite str_app_assoc, <-app_assoc.
  - apply IH.
  - by rewrite str_app_nil_r.
Qed.

Lemma ui_of_app_no_rc q1 q2 :
  has_rc q1 = false → ui_of (q1 ++ q2) = ui_of q1 ++ ui_of q2.
Proof.
  induction q1 as [|[s| |rc] q1 IH]; simpl; intros H; try done.
  - by rewrite IH.
  - by apply IH.
Qed.

Lemma ui_of_app_rc q1 q2 : has_rc q1 = true → ui_of (q1 ++ q2) = ui_of q1.
Proof.
  induction q1 as [|[s| |rc] q1 IH]; simpl; intros H; try done.
  - by rewrite IH.
  - by apply IH.
Qed.

Lemma has_rc_app q1 q2 : has_rc (q1 ++ q2) = has_rc q1 || has_rc q2.
Proof. induction q1 as [|[s| |rc] q1 IH]; simpl; auto. Qed.

Lemma has_rc_chunks chunks : has_rc (Chunk <$> chunks) = false.
Proof. induction chunks as [|c cs IH]; [done|]. rewrite fmap_cons. exact IH. Qed.

Lemma ui_of_chunks chunks : ui_of (Chunk <$> chunks) = Insert <$> chunks.
Proof.
  induction chunks as [|c cs IH]; [done|].
  rewrite !fmap_cons. cbn [ui_of]. by rewrite IH.
Qed.

Lemma text_of_chunks chunks : text_of (Chunk <$> chunks) = concat_text chunks.
Proof.
  induction chunks as [|c cs IH]; [done|].
  rewrite fmap_cons. cbn [text_of]. rewrite IH.
  unfold concat_text, join. destruct cs as [|c' cs]; [|done].
  cbn [concat]. by rewrite str_app_nil_r.
Qed.

Lemma inserted_text_app evs1 evs2 :
  inserted_text (evs1 ++ evs2) = inserted_text evs1 +:+ inserted_text evs2.
Proof.
  induction evs1 as [|[s|rc] evs1 IH]; simpl; [done| |done].
  by rewrite IH, str_app_assoc.
Qed.

Lemma inserted_text_ui_of q : inserted_text (ui_of q) = text_of q.
Proof. induction q as [|[s| |rc] q IH]; simpl; [done| |done|done]. by rewrite IH. Qed.

Lemma inserted_text_inserts chunks :
  inserted_text (Insert <$> chunks) = concat_text chunks.
Proof. by rewrite <-ui_of_chunks, inserted_text_ui_of, text_of_chunks. Qed.

(** The completion tuple is the last thing the worker puts: whatever
    follows a completion tuple inside the production is empty. *)
Lemma rc_is_last (X a b : list item) r rc :
  has_rc X = false → a ++ RC r :: b = X ++ [RC rc] → b = [] ∧ has_rc a = false.
Proof.
  revert X. induction a as [|y a IH]; intros [|x X] HX Heq; simplify_eq/=.
  - done.
  - destruct a; simplify_eq/=.
  - destruct (IH X) as [-> Ha]; [by destruct x|done|]. by destruct x.
Qed.

Lemma after_rc_split q :
  has_rc q = true → ∃ q1 r, q = q1 ++ RC r :: after_rc q ∧ has_rc q1 = false.
Proof.
  induction q as [|[s| |rc] q IH]; simpl; intros H; try done.
  - destruct (IH H) as (q1 & r & Hq & H1). exists (Chunk s :: q1), r.
    split; [by rewrite <-app_comm_cons, <-Hq|done].
  - destruct (IH H) as (q1 & r & Hq & H1). exists (Sentinel :: q1), r.
    split; [by rewrite <-app_comm_cons, <-Hq|done].
  - by exists [], rc.
Qed.

(** ** The pipeline of one invocation *)

Lemma run_app sched1 sched2 s : run (sched1 ++ sched2) s = run sched2 (run sched1 s).
Proof. apply foldl_app. Qed.

Lemma run_snoc sched a s : run (sched ++ [a]) s = step a (run sched s).
Proof. by rewrite run_app. Qed.

Lemma run_puts k s :
  run (replicate k WorkerPut) s =
    mk_pipeline (drop k (pending s)) (relay s ++ take k (pending s))
      (display s) (events s) (polling s).
Proof.
  revert s. induction k as [|k IH]; intros [pe re di ev po]; simpl.
  - by rewrite app_nil_r.
  - destruct pe as [|i pe]; simpl.
    + fold (run (replicate k WorkerPut) (mk_pipeline [] re di ev po)).
      rewrite IH. simpl. by rewrite drop_nil, take_nil.
    + fold (run (replicate k WorkerPut) (mk_pipeline pe (re ++ [i]) di ev po)).
      rewrite IH. simpl. by rewrite <-app_assoc.
Qed.

Lemma ui_of_production chunks rc : ui_of (production chunks rc) = full_trace chunks rc.
Proof.
  unfold production, full_trace.
  rewrite ui_of_app_no_rc by apply has_rc_chunks. by rewrite ui_of_chunks.
Qed.

Lemma production_rc_last chunks rc :
  production chunks rc = ((Chunk <$> chunks) ++ [Sentinel]) ++ [RC rc] ∧
  has_rc ((Chunk <$> chunks) ++ [Sentinel]) = false.
Proof.
  split; [unfold production; by rewrite <-app_assoc|].
  by rewrite has_rc_app, has_rc_chunks.
Qed.

Lemma has_rc_production chunks rc : has_rc (production chunks rc) = true.
Proof. unfold production. by rewrite has_rc_app, has_rc_chunks. Qed.

Lemma pipeline_inv_init chunks rc w :
  pipeline_inv chunks rc (mk_pipeline (production chunks rc) [] w [] true).
Proof.
  unfold pipeline_inv; simpl. split; [by exists []|apply ui_of_production].
Qed.

Lemma pipeline_inv_step chunks rc a s :
  pipeline_inv chunks rc s → pipeline_inv chunks rc (step a s).
Proof.
  destruct s as [pe re di ev po]. unfold pipeline_inv.
  destruct a; simpl.
  - (* the worker puts its next item *)
    destruct pe as [|i pe]; simpl; [done|].
    destruct po; [|by intros (_ & _ & ?)]. rewrite <-!app_assoc. simpl. done.
  - (* poll runs *)
    destruct po; simpl; [|done]. rewrite poll_spec.
    intros [(d & Hd & Hprod) Hev].
    destruct (has_rc re) eqn:Hrc; simpl.
    + destruct (after_rc_split re Hrc) as (q1 & r & Hre & Hq1).
      destruct (production_rc_last chunks rc) as [HX HnoX].
      rewrite ui_of_app_rc in Hev by done.
      generalize dependent (after_rc re). intros tl Hre.
      assert (tl ++ pe = [] ∧ has_rc (d ++ q1) = false) as [Hnil _].
      { eapply (rc_is_last _ (d ++ q1) _ r rc HnoX).
        rewrite <-HX, <-Hprod, Hre, <-!app_assoc. done. }
      by apply app_eq_nil in Hnil as [-> ->].
    + split.
      * exists (d ++ re). rewrite has_rc_app, Hd, Hrc. split; [done|].
        by rewrite <-app_assoc.
      * rewrite ui_of_app_no_rc in Hev by done. by rewrite <-app_assoc.
  - done.
Qed.

Lemma pipeline_inv_run chunks rc sched s :
  pipeline_inv chunks rc s → pipeline_inv chunks rc (run sched s).
Proof.
  revert s. induction sched as [|a sched IH]; intros s Hs; [done|].
  apply IH, pipeline_inv_step, Hs.
Qed.

Lemma pipeline_inv_prefix chunks rc s :
  pipeline_inv chunks rc s → events s `prefix_of` full_trace chunks rc.
Proof.
  unfold pipeline_inv. destruct (polling s).
  - intros [_ <-]. by apply prefix_app_r.
  - by intros [-> _].
Qed.

Lemma pipeline_inv_flush chunks rc s :
  pipeline_inv chunks rc s →
  polling (run (replicate (length chunks + 2) WorkerPut ++ [Tick]) s) = false.
Proof.
  intros Hs. rewrite run_snoc, run_puts.
  unfold pipeline_inv in Hs. destruct s as [pe re di ev po]; simpl in *.
  destruct po; [|done].
  destruct Hs as [(d & Hd & Hprod) _].
  assert (length pe ≤ length chunks + 2)%nat as Hlen.
  { apply (f_equal length) in Hprod. unfold production in Hprod.
    rewrite !length_app, length_fmap in Hprod. simpl in Hprod. lia. }
  rewrite take_ge, poll_spec by lia.
  assert (has_rc (re ++ pe) = true) as ->; [|done].
  apply (f_equal has_rc) in Hprod.
  by rewrite has_rc_production, has_rc_app, Hd in Hprod.
Qed.

Lemma display_after_inserts sched w s :
  ClearOutput ∉ sched →
  display s = w +:+ inserted_text (events s) →
  display (run sched s) = w +:+ inserted_text (events (run sched s)).
Proof.
  revert s. induction sched as [|a sched IH]; intros s Hno Hs; [done|].
  apply not_elem_of_cons in Hno as [Ha Hno].
  apply IH; [done|]. destruct s as [pe re di ev po]; simpl in *.
  destruct a; simpl; [by destruct pe| |done].
  destruct po; simpl; [|done]. rewrite poll_spec.
  destruct (has_rc re); simpl;
    by rewrite inserted_text_app, inserted_text_ui_of, Hs, str_app_assoc.
Qed.

Lemma worker_production Popen cmd chunks rc :
  run_process Popen cmd [] = (Chunk <$> chunks, Return rc) →
  worker Popen cmd [] = (production chunks rc, None).
Proof. intros H. unfold worker. by rewrite H. Qed.

Lemma no_production_no_completion sched s :
  pending s = [] → relay s = [] → events s = [] → polling s = true →
  events (run sched s) = [] ∧ polling (run sched s) = true.
Proof.
  revert s. induction sched as [|a sched IH]; intros [pe re di ev po] ????;
    simplify_eq/=; [done|].
  destruct a; simpl; by apply IH.
Qed.

(** Any exception of [Popen] other than [FileNotFoundError] leaves
    [run_process]: the worker puts nothing, and the drain never completes. *)
Lemma launch_failure_escapes Popen cmd e w sched :
  Popen cmd = LaunchRaises e →
  is_FileNotFoundError e = false →
  worker Popen cmd [] = ([], Some e) ∧
  events (run sched (_background_run_and_stream Popen cmd w)) = [] ∧
  polling (run sched (_background_run_and_stream Popen cmd w)) = true.
Proof.
  intros HP He.
  assert (worker Popen cmd [] = ([], Some e)) as Hw.
  { unfold worker. by rewrite (run_process_launch_escapes Popen cmd e [] HP He). }
  split; [done|]. unfold _background_run_and_stream. rewrite Hw.
  by apply no_production_no_completion.
Qed.

(** C1, evaluated where the launch fails for another reason than a missing
    file: the script exists but may not be executed, so that [Popen] raises
    [PermissionError].  The exception leaves [run_process]; the worker puts
    nothing on the queue, neither a diagnostic nor the completion tuple; and
    whatever the schedule, the drain loop never calls the completion
    callback and keeps rescheduling itself. *)
Theorem launch_permission_denied_never_completes :
  run_process Popen_not_executable organize_cmd [] =
    ([], Raise (mk_exn PermissionError
                  "[Errno 13] Permission denied: '/home/user/organize_files.sh'")) ∧
  fst (worker Popen_not_executable organize_cmd []) = [] ∧
  ∀ sched,
    let s := run sched (_background_run_and_stream Popen_not_executable organize_cmd "") in
    events s = [] ∧ polling s = true.
Proof.
  split; [done|]. split; [done|].
  intros sched. by apply no_production_no_completion.
Qed.

(** The launch failure the code does convert: when [Popen] raises
    [FileNotFoundError], one diagnostic chunk is enqueued, 127 is returned,
    and the drain ends with that single chunk on the display followed by
    one call of the callback with 127. *)
Lemma launch_not_found_completes_once Popen exe args e w sched :
  Popen (exe :: args) = LaunchRaises e →
  is_FileNotFoundError e = true →
  let diag := "[ERROR] Script not found: " +:+ exe +:+ nl +:+ exn_msg e +:+ nl in
  let s := run sched (_background_run_and_stream Popen (exe :: args) w) in
  run_process Popen (exe :: args) [] = ([Chunk diag], Return 127%Z) ∧
  events s `prefix_of` [Insert diag; Complete 127%Z] ∧
  (polling s = false → events s = [Insert diag; Complete 127%Z]).
Proof.
  intros HP He diag s.
  pose proof (run_process_not_found Popen exe args e [] HP He) as Hrun.
  split; [exact Hrun|].
  assert (pipeline_inv [diag] 127 s) as Hinv.
  { apply pipeline_inv_run. unfold _background_run_and_stream.
    rewrite (worker_production Popen _ [diag] 127%Z Hrun). apply pipeline_inv_init. }
  split; [by apply (pipeline_inv_prefix [diag] 127)|].
  intros Hp. unfold pipeline_inv in Hinv. rewrite Hp in Hinv. by destruct Hinv.
Qed.

(** C2: for an invocation of the runner that enqueues [chunks] and returns
    [rc], under every interleaving of the worker's puts with the runs of
    [poll]: the UI events are at every moment a prefix of "insert each chunk
    in the order enqueued, then call the callback with [rc]", so the
    callback is called at most once and only after all the inserts; when
    [poll] has stopped the trace is complete and the completion tuple was
    the last item: nothing is left queued or pending; [poll] does stop at
    the first run after the worker's last put; and without a clearing of the
    display in between, the display is the initial text followed by the
    inserted chunks. *)
Theorem drain_keeps_order_and_completes_once
    Popen cmd (chunks : list string) (rc : Z) (w : string) :
  run_process Popen cmd [] = (Chunk <$> chunks, Return rc) →
  let init := _background_run_and_stream Popen cmd w in
  (∀ sched, events (run sched init) `prefix_of` (Insert <$> chunks) ++ [Complete rc]) ∧
  (∀ sched, polling (run sched init) = false →
     events (run sched init) = (Insert <$> chunks) ++ [Complete rc] ∧
     relay (run sched init) = [] ∧ pending (run sched init) = []) ∧
  (∀ sched,
     polling (run (sched ++ replicate (length chunks + 2) WorkerPut ++ [Tick]) init)
       = false) ∧
  (∀ sched, ClearOutput ∉ sched →
     display (run sched init) = w +:+ inserted_text (events (run sched init))) ∧
  (∀ sched, ClearOutput ∉ sched → polling (run sched init) = false →
     display (run sched init) = w +:+ concat_text chunks).
Proof.
  intros Hrun init.
  assert (∀ sched, pipeline_inv chunks rc (run sched init)) as Hinv.
  { intros sched. apply pipeline_inv_run. unfold init, _background_run_and_stream.
    rewrite (worker_production _ _ _ _ Hrun). apply pipeline_inv_init. }
  assert (∀ sched, polling (run sched init) = false →
     events (run sched init) = (Insert <$> chunks) ++ [Complete rc] ∧
     relay (run sched init) = [] ∧ pending (run sched init) = []) as Hdone.
  { intros sched Hp. specialize (Hinv sched). unfold pipeline_inv in Hinv.
    by rewrite Hp in Hinv. }
  assert (∀ sched, ClearOutput ∉ sched →
     display (run sched init) = w +:+ inserted_text (events (run sched init))) as Hdisp.
  { intros sched Hno. apply display_after_inserts; [done|].
    unfold init, _background_run_and_stream; simpl. by rewrite str_app_nil_r. }
  repeat split.
  - intros sched. apply (pipeline_inv_prefix chunks rc), Hinv.
  - by apply Hdone.
  - by apply Hdone.
  - by apply Hdone.
  - intros sched. rewrite run_app. apply (pipeline_inv_flush chunks rc), Hinv.
  - exact Hdisp.
  - intros sched Hno Hp. rewrite Hdisp by done.
    destruct (Hdone sched Hp) as [-> _].
    rewrite inserted_text_app, inserted_text_inserts. simpl.
    by rewrite str_app_nil_r.
Qed.

(** C6: when the process has started and reading its output raises, the
    runner keeps the lines read so far, enqueues one diagnostic chunk after
    them and returns 1; the worker then puts the sentinel and the completion
    tuple carrying 1. *)
Theorem stream_failure_gives_diagnostic_and_code_1
    Popen cmd (q : list item) proc e :
  Popen cmd = Started proc →
  stream_error proc = Some e →
  is_Exception e = true →
  let diag := "[ERROR] Running command failed: " +:+ exn_msg e +:+ nl in
  run_process Popen cmd q =
    (q ++ (Chunk <$> stdout_lines proc) ++ [Chunk diag], Return 1%Z) ∧
  worker Popen cmd [] = (production (stdout_lines proc ++ [diag]) 1, None).
Proof.
  intros HP Herr He diag.
  assert (run_process Popen cmd q =
    (q ++ (Chunk <$> stdout_lines proc) ++ [Chunk diag], Return 1%Z)) as Hq.
  { unfold run_process. rewrite HP, Herr, He. by rewrite <-app_assoc. }
  split; [exact Hq|].
  unfold worker, run_process. rewrite HP, Herr, He. simpl.
  unfold production. by rewrite fmap_app.
Qed.

(** C8: clearing the output leaves the display empty and does not touch the
    relay queue, the worker's pending puts or the events; while the drain is
    active, the run of [poll] that follows a clearing shows exactly the
    chunks that were queued, in order, and calls what it would have called
    without the clearing. *)
Theorem clear_output_keeps_queued_chunks :
  (∀ w, clear_output_text w = "") ∧
  (∀ s, display (step ClearOutput s) = "" ∧
        relay (step ClearOutput s) = relay s ∧
        pending (step ClearOutput s) = pending s ∧
        events (step ClearOutput s) = events s ∧
        polling (step ClearOutput s) = polling s) ∧
  (∀ s, polling s = true →
        display (step Tick (step ClearOutput s)) = text_of (relay s) ∧
        events (step Tick (step ClearOutput s)) = events (step Tick s) ∧
        relay (step Tick (step ClearOutput s)) = relay (step Tick s)) ∧
  (∀ s chunks, polling s = true → relay s = Chunk <$> chunks →
        display (step Tick (step ClearOutput s)) = concat_text chunks ∧
        relay (step Tick (step ClearOutput s)) = []).
Proof.
  split; [done|]. split; [done|]. split.
  - intros [pe re di ev po] Hp; simpl in *; subst po. simpl.
    rewrite !poll_spec. by destruct (has_rc re).
  - intros [pe re di ev po] chunks Hp Hre; simpl in *; subst po re. simpl.
    rewrite poll_spec, has_rc_chunks, text_of_chunks. done.
Qed.

(** ** File system *)

Lemma find_entry_app_None c es x :
  find_entry c es = None → find_entry c (es ++ [(c, x)]) = Some x.
Proof.
  induction es as [|[n y] es IH]; simpl.
  - by rewrite bool_decide_eq_true_2.
  - by destruct (bool_decide (n = c)).
Qed.

Lemma find_set_entry c x es : find_entry c (set_entry c x es) = Some x.
Proof.
  induction es as [|[n y] es IH]; simpl.
  - by rewrite bool_decide_eq_true_2.
  - destruct (bool_decide (n = c)) eqn:Hn; simpl; by rewrite Hn.
Qed.

Lemma set_entry_same c x es : find_entry c es = Some x → set_entry c x es = es.
Proof.
  induction es as [|[n y] es IH]; simpl; [done|].
  destruct (bool_decide (n = c)); [by intros [= ->]|].
  intros H. by rewrite IH.
Qed.

Lemma resolve_mkdir_chain cs k :
  ∃ es, resolve (take k cs) (mkdir_chain cs) = Some (Dir es).
Proof.
  revert k. induction cs as [|c cs IH]; intros [|k]; simpl; eauto.
  rewrite bool_decide_eq_true_2 by done. apply IH.
Qed.

(** After a successful [makedirs], the path and each of its ancestors is a
    directory. *)
Lemma makedirs_at_resolve cs n n' k :
  makedirs_at cs n = Some n' → ∃ es, resolve (take k cs) n' = Some (Dir es).
Proof.
  revert n n' k. induction cs as [|c cs IH]; intros [r b|es] n' k Hmk;
    simplify_eq/=.
  - rewrite take_nil. eauto.
  - destruct (find_entry c es) as [child|] eqn:Hc.
    + destruct (makedirs_at cs child) as [child'|] eqn:Hch; simplify_eq/=.
      destruct k as [|k]; simpl; [eauto|].
      rewrite find_set_entry. by eapply IH.
    + simplify_eq/=. destruct k as [|k]; simpl; [eauto|].
      rewrite find_entry_app_None by done. apply resolve_mkdir_chain.
Qed.

(** [makedirs] raises only for a regular file on the way. *)
Lemma makedirs_at_succeeds cs n :
  (∀ k r b, resolve (take k cs) n ≠ Some (File r b)) →
  is_Some (makedirs_at cs n).
Proof.
  revert n. induction cs as [|c cs IH]; intros [r b|es] Hfree.
  - by specialize (Hfree 0%nat r b).
  - by eexists.
  - by specialize (Hfree 0%nat r b).
  - simpl. destruct (find_entry c es) as [child|] eqn:Hc; [|by eexists].
    destruct (IH child) as [child' ->]; [|by eexists].
    intros k r b. specialize (Hfree (S k) r b). simpl in Hfree. by rewrite Hc in Hfree.
Qed.

(** [exist_ok=True]: an existing directory is left as it is. *)
Lemma makedirs_at_existing cs n es :
  resolve cs n = Some (Dir es) → makedirs_at cs n = Some n.
Proof.
  revert n. induction cs as [|c cs IH]; intros [r b|es'] Hres; simplify_eq/=.
  - done.
  - destruct (find_entry c es') as [child|] eqn:Hc; [|done].
    rewrite (IH child Hres). by rewrite set_entry_same.
Qed.

Lemma isdir_resolve fs p :
  p ≠ "" → isdir fs p = true ↔ ∃ es, resolve (split_path p) fs = Some (Dir es).
Proof.
  intros Hp. unfold isdir, lookup_path. rewrite bool_decide_eq_false_2 by done.
  destruct (resolve (split_path p) fs) as [[r b|es]|]; split; try done; eauto.
  - by intros [? ?].
  - by intros [? ?].
Qed.

(** ** Organizer tab *)

(** C5: when the stripped source or output path is empty, or the source is
    not an existing directory, [run_organizer] returns after showing one
    message box: no directory is created, no thread (hence no process) is
    started, the tab and the file system are as before, and nothing is
    raised. *)
Theorem organize_validation_failure_launches_nothing BASE_DIR fs t :
  strip (src_var t) = "" ∨ strip (out_var t) = "" ∨
    isdir fs (strip (src_var t)) = false →
  let r := run_organizer BASE_DIR fs t in
  (∃ d, res_effects r = [d] ∧ is_dialog d = true) ∧
  (∀ e, e ∈ res_effects r → is_launch e = false) ∧
  res_state r = t ∧ res_fs r = fs ∧ res_raised r = None.
Proof.
  intros Hbad. unfold run_organizer.
  destruct (bool_decide (strip (src_var t) = "") || bool_decide (strip (out_var t) = ""))
    eqn:Hempty; simpl.
  - split; [eauto|]. split; [|done]. by intros e ->%list_elem_of_singleton.
  - apply orb_false_iff in Hempty as [Hs Ho].
    apply bool_decide_eq_false in Hs, Ho.
    destruct Hbad as [?|[?|Hdir]]; [done..|]. rewrite Hdir. simpl.
    split; [eauto|]. split; [|done]. by intros e ->%list_elem_of_singleton.
Qed.

(** C9: with a non-empty source that is an existing directory and a
    non-empty output path, no message box is shown whether or not the output
    path exists.  When [os.makedirs] returns, the output path and each of
    its ancestors is a directory of the new file system, and the directory
    creation comes before the one thread start, whose command is the
    organize script with the two paths; [os.makedirs] returns whenever no
    regular file lies on the output path, and leaves an existing output
    directory as it is; when it raises, nothing is launched. *)
Theorem organize_creates_output_before_launch BASE_DIR fs t :
  strip (src_var t) ≠ "" →
  strip (out_var t) ≠ "" →
  isdir fs (strip (src_var t)) = true →
  let src := strip (src_var t) in
  let out := strip (out_var t) in
  let r := run_organizer BASE_DIR fs t in
  (∀ e, e ∈ res_effects r → is_dialog e = false) ∧
  (∀ fs', makedirs fs out = Some fs' →
     res_fs r = fs' ∧ isdir fs' out = true ∧
     (∀ k, ∃ es, resolve (take k (split_path out)) fs' = Some (Dir es)) ∧
     res_effects r = [MakeDirs out; ThreadStart [ORGANIZE_SCRIPT BASE_DIR; src; out]] ∧
     res_raised r = None) ∧
  ((∀ k rd b, resolve (take k (split_path out)) fs ≠ Some (File rd b)) →
     is_Some (makedirs fs out)) ∧
  (isdir fs out = true → makedirs fs out = Some fs) ∧
  (makedirs fs out = None →
     res_effects r = [] ∧ is_Some (res_raised r) ∧ res_fs r = fs).
Proof.
  intros Hs Ho Hdir src out r.
  assert (makedirs fs out = makedirs_at (split_path out) fs) as Hmk.
  { unfold makedirs. by rewrite bool_decide_eq_false_2. }
  assert (r = match makedirs fs out with
              | None => mk_result t fs [] (Some (mk_exn OSError out))
              | Some fs' =>
                  mk_result
                    (mk_organizer_tab (src_var t) (out_var t) false
                       "Running organizer..." true (clear_output_text (text_out t)))
                    fs' [MakeDirs out; ThreadStart [ORGANIZE_SCRIPT BASE_DIR; src; out]]
                    None
              end) as Hr.
  { unfold r, run_organizer. fold src out.
    rewrite !bool_decide_eq_false_2 by done. simpl. unfold src. by rewrite Hdir. }
  split; [|split; [|split; [|split]]].
  - intros e. rewrite Hr. destruct (makedirs fs out); simpl.
    + intros [->|[->|[]%elem_of_nil]%elem_of_cons]%elem_of_cons; done.
    + by intros ?%elem_of_nil.
  - intros fs' Hfs'. rewrite Hr, Hfs'. simpl. rewrite Hmk in Hfs'.
    split; [done|]. split; [|split; [|done]].
    + apply isdir_resolve; [done|].
      destruct (makedirs_at_resolve _ _ _ (length (split_path out)) Hfs')
        as [es Hes].
      rewrite take_ge in Hes by done. eauto.
    + intros k. by eapply makedirs_at_resolve.
  - intros Hfree. rewrite Hmk. by apply makedirs_at_succeeds.
  - intros [es Hes]%isdir_resolve; [|done]. rewrite Hmk.
    by eapply makedirs_at_existing.
  - intros Hnone. rewrite Hr, Hnone. simpl. by eauto.
Qed.

(** ** Backup listing *)

Global Instance str_ge_total : Total str_ge.
Proof. intros a b. unfold str_ge. destruct (total String.le a b); auto. Qed.

Global Instance str_ge_trans : Transitive str_ge.
Proof. intros a b c Hab Hbc. unfold str_ge in *. by etrans. Qed.

Global Instance str_ge_antisymm : AntiSymm (=) str_ge.
Proof. intros a b Hab Hba. unfold str_ge in *. by apply (anti_symm String.le). Qed.

Lemma sorted_reverse_sorted l : StronglySorted str_ge (sorted_reverse l).
Proof. apply StronglySorted_merge_sort; apply _. Qed.

Lemma sorted_reverse_perm l : sorted_reverse l ≡ₚ l.
Proof. apply merge_sort_Permutation. Qed.

(** The order in which [os.listdir] gives the names is irrelevant. *)
Lemma sorted_reverse_order_independent l1 l2 :
  l1 ≡ₚ l2 → sorted_reverse l1 = sorted_reverse l2.
Proof.
  intros Hp. apply (StronglySorted_unique str_ge); try apply sorted_reverse_sorted.
  by rewrite !sorted_reverse_perm.
Qed.

Lemma StronglySorted_filter {A} (R : relation A) (P : A → Prop)
    `{∀ x, Decision (P x)} (l : list A) :
  StronglySorted R l → StronglySorted R (filter P l).
Proof.
  induction 1 as [|x l Hl IH Hx]; [constructor|].
  rewrite filter_cons. destruct (decide (P x)); [|done].
  constructor; [done|]. apply Forall_forall. intros y [_ Hy]%list_elem_of_filter.
  by eapply Forall_forall in Hx.
Qed.

Lemma lower_length s : String.length (lower s) = String.length s.
Proof. induction s as [|c s IH]; simpl; [done|]. by rewrite IH. Qed.

Lemma lower_string_drop n s : lower (string_drop n s) = string_drop n (lower s).
Proof. revert s. induction n as [|n IH]; intros [|c s]; simpl; auto. Qed.

(** A name that ends in [.zip] as written passes the test the code makes on
    the lowered name. *)
Lemma endswith_zip_lower f :
  endswith f ".zip" = true → endswith (lower f) ".zip" = true.
Proof.
  unfold endswith. rewrite lower_length.
  intros [Hlen Heq]%andb_true_iff. rewrite Hlen. simpl.
  apply String.eqb_eq in Heq. apply String.eqb_eq.
  rewrite <-lower_string_drop. simpl in Heq. by rewrite Heq.
Qed.

Lemma listdir_isdir fs p names : listdir fs p = Some names → isdir fs p = true.
Proof. unfold listdir, isdir. by destruct (lookup_path fs p) as [[|]|]. Qed.

Lemma refresh_backups_listed fs bd old names :
  strip bd ≠ "" →
  listdir fs (path_join (strip bd) "backups") = Some names →
  refresh_backups fs bd old =
    filter (λ f, endswith (lower f) ".zip" = true) (sorted_reverse names).
Proof.
  intros Hd Hls. unfold refresh_backups.
  rewrite bool_decide_eq_false_2 by done.
  by rewrite (listdir_isdir _ _ _ Hls), Hls.
Qed.

(** C4: the list box holds exactly the entries of the [backups]
    subdirectory whose name ends in the zip extension (the code compares the
    lowered name with [.zip], so a name ending in [.zip] as written is
    always listed), each as often as the directory has it, in descending
    order of names; when the subdirectory is missing the list is empty; and
    a directory holding backup_2024.zip, backup_2023.zip and notes.txt, in
    whatever order the system lists them, gives backup_2024.zip then
    backup_2023.zip. *)
Theorem refresh_backups_lists_archives_newest_first fs bd old :
  let backups_dir := path_join (strip bd) "backups" in
  (∀ names, strip bd ≠ "" → listdir fs backups_dir = Some names →
     refresh_backups fs bd old ≡ₚ filter (λ f, endswith (lower f) ".zip" = true) names ∧
     (∀ f, f ∈ refresh_backups fs bd old ↔
           f ∈ names ∧ endswith (lower f) ".zip" = true) ∧
     (∀ f, f ∈ names → endswith f ".zip" = true → f ∈ refresh_backups fs bd old) ∧
     StronglySorted str_ge (refresh_backups fs bd old)) ∧
  (isdir fs backups_dir = false → refresh_backups fs bd old = []) ∧
  (∀ names, strip bd ≠ "" → listdir fs backups_dir = Some names →
     names ≡ₚ ["backup_2024.zip"; "backup_2023.zip"; "notes.txt"] →
     refresh_backups fs bd old = ["backup_2024.zip"; "backup_2023.zip"]).
Proof.
  intros backups_dir. split; [|split].
  - intros names Hd Hls. rewrite (refresh_backups_listed _ _ _ _ Hd Hls).
    assert (∀ f, f ∈ filter (λ f, endswith (lower f) ".zip" = true) (sorted_reverse names)
              ↔ f ∈ names ∧ endswith (lower f) ".zip" = true) as Hmem.
    { intros f. rewrite list_elem_of_filter, sorted_reverse_perm. tauto. }
    split; [by rewrite sorted_reverse_perm|]. split; [exact Hmem|]. split.
    + intros f Hf Hzip. apply Hmem. split; [done|]. by apply endswith_zip_lower.
    + apply StronglySorted_filter, sorted_reverse_sorted.
  - intros Hno. unfold refresh_backups. fold backups_dir. rewrite Hno. simpl.
    by destruct (bool_decide (strip bd = "")).
  - intros names Hd Hls Hperm. rewrite (refresh_backups_listed _ _ _ _ Hd Hls).
    by rewrite (sorted_reverse_order_independent _ _ Hperm).
Qed.

(** ** Live Log Tailer *)

Lemma join_singleton sep s : join sep [s] = s.
Proof. done. Qed.

Lemma join_elem sep (x : string) (l : list string) :
  x ∈ l → ∃ pre post, join sep l = pre +:+ x +:+ post.
Proof.
  induction l as [|y l IH]; [by intros ?%elem_of_nil|].
  intros [->|Hx]%elem_of_cons.
  - destruct l as [|z l].
    + exists "", "". by rewrite join_singleton, str_app_nil_r.
    + exists "", (sep +:+ join sep (z :: l)). done.
  - destruct (IH Hx) as (pre & post & Heq). destruct l as [|z l].
    + by apply elem_of_nil in Hx.
    + exists (y +:+ sep +:+ pre), post.
      change (join sep (y :: z :: l)) with (y +:+ sep +:+ join sep (z :: l)).
      by rewrite Heq, !str_app_assoc.
Qed.

Section tail_loop.
Variable fs : node.

Lemma tail_one_parts acc p : ∃ extra, (tail_one fs acc p).1 = acc.1 ++ extra.
Proof.
  unfold tail_one. destruct (read_file fs p) as [c|]; simpl.
  - destruct (bool_decide _); [exists []; by rewrite app_nil_r|by eexists].
  - exists []. by rewrite app_nil_r.
Qed.

Lemma tail_loop_parts l acc :
  ∃ extra, (foldl (tail_one fs) acc l).1 = acc.1 ++ extra.
Proof.
  revert acc. induction l as [|q l IH]; intros acc; simpl.
  - exists []. by rewrite app_nil_r.
  - destruct (IH (tail_one fs acc q)) as [e2 ->].
    destruct (tail_one_parts acc q) as [e1 ->].
    exists (e1 ++ e2). by rewrite app_assoc.
Qed.

Lemma tail_one_other acc p q :
  q ≠ p → (tail_one fs acc q).2 !! p = acc.2 !! p.
Proof.
  intros Hq. unfold tail_one. destruct (read_file fs q); simpl; [|done].
  by rewrite lookup_insert_ne.
Qed.

(** A path that cannot be read keeps its recorded position. *)
Lemma tail_loop_unreadable l acc p :
  read_file fs p = None → (foldl (tail_one fs) acc l).2 !! p = acc.2 !! p.
Proof.
  intros Hp. revert acc. induction l as [|q l IH]; intros acc; simpl; [done|].
  rewrite IH. destruct (decide (q = p)) as [->|Hq].
  - unfold tail_one. by rewrite Hp.
  - by apply tail_one_other.
Qed.

(** A path that is not tailed keeps its recorded position. *)
Lemma tail_loop_not_tailed l acc p :
  p ∉ l → (foldl (tail_one fs) acc l).2 !! p = acc.2 !! p.
Proof.
  revert acc. induction l as [|q l IH]; intros acc Hp; simpl; [done|].
  apply not_elem_of_cons in Hp as [Hq Hp].
  rewrite IH by done. by apply tail_one_other.
Qed.

(** A tick over the paths gives what a tick over the readable ones gives. *)
Lemma tail_loop_skips l acc p :
  read_file fs p = None →
  foldl (tail_one fs) acc l = foldl (tail_one fs) acc (filter (λ q, q ≠ p) l).
Proof.
  intros Hp. revert acc. induction l as [|q l IH]; intros acc; [done|].
  rewrite filter_cons. destruct (decide (q ≠ p)) as [Hq|Hq]; simpl.
  - apply IH.
  - apply dec_stable in Hq as ->. rewrite IH. unfold tail_one at 2. by rewrite Hp.
Qed.

Lemma tail_loop_at_end l acc p c v :
  read_file fs p = Some c →
  (String.length c ≤ v)%nat →
  acc.2 !! p = Some v →
  (foldl (tail_one fs) acc l).2 !! p = Some v.
Proof.
  intros Hp Hv. revert acc. induction l as [|q l IH]; intros acc Hacc; simpl; [done|].
  apply IH. destruct (decide (q = p)) as [->|Hq].
  - unfold tail_one. rewrite Hp; simpl. rewrite lookup_insert_eq, Hacc. simpl.
    f_equal. lia.
  - by rewrite tail_one_other.
Qed.

(** A readable tailed path: the position becomes the length of the file,
    or stays when the file ends before it, and the text read from the old
    position on, when there is some, is among the sections. *)
Lemma tail_loop_readable l acc p c :
  p ∈ l →
  read_file fs p = Some c →
  let r := foldl (tail_one fs) acc l in
  r.2 !! p = Some (Nat.max (default 0 (acc.2 !! p)) (String.length c)) ∧
  (string_drop (default 0 (acc.2 !! p)) c ≠ "" →
   section_of p (read_text (default 0 (acc.2 !! p)) c) ∈ r.1).
Proof.
  intros Hin Hp. revert acc. induction l as [|q l IH]; intros acc;
    [by apply elem_of_nil in Hin|].
  simpl. destruct (decide (q = p)) as [->|Hq].
  - assert ((tail_one fs acc p).2 !! p =
              Some (Nat.max (default 0 (acc.2 !! p)) (String.length c))) as Hend.
    { unfold tail_one. rewrite Hp; simpl. by rewrite lookup_insert_eq. }
    split; [apply (tail_loop_at_end l _ p c); [done|lia|done]|].
    intros Hdata. destruct (tail_loop_parts l (tail_one fs acc p)) as [extra ->].
    apply elem_of_app. left. unfold tail_one. rewrite Hp; simpl.
    rewrite bool_decide_eq_false_2 by by rewrite read_text_nil.
    apply elem_of_app. right. by apply list_elem_of_singleton.
  - apply elem_of_cons in Hin as [->|Hin]; [done|].
    pose proof (tail_one_other acc p q Hq) as Hsame.
    specialize (IH Hin (tail_one fs acc q)). rewrite Hsame in IH. by apply IH.
Qed.
End tail_loop.

Lemma do_tail_running fs t :
  _live_logs_running t = true →
  _do_tail fs t =
    let r := foldl (tail_one fs) ([], _tail_positions t) (_live_log_paths t) in
    (mk_logs_tab (log_dir_var t)
       (match r.1 with [] => text_logs t | _ => text_logs t +:+ join nl r.1 end)
       true (_live_log_paths t) r.2,
     [After LOG_POLL_MS]).
Proof. intros Hr. unfold _do_tail. by rewrite Hr. Qed.

Lemma do_tail_paths fs t : _live_log_paths (_do_tail fs t).1 = _live_log_paths t.
Proof. unfold _do_tail. by destruct (_live_logs_running t). Qed.

(** The tick of a running tailer on a readable tailed file. *)
Lemma do_tail_readable fs t p c :
  _live_logs_running t = true →
  p ∈ _live_log_paths t →
  read_file fs p = Some c →
  offset_of (_do_tail fs t).1 p = Nat.max (offset_of t p) (String.length c) ∧
  (string_drop (offset_of t p) c ≠ "" →
   ∃ pre post,
     text_logs (_do_tail fs t).1 =
       text_logs t +:+ pre +:+ section_of p (read_text (offset_of t p) c) +:+ post).
Proof.
  intros Hr Hin Hp. rewrite do_tail_running by done.
  destruct (tail_loop_readable fs (_live_log_paths t) ([], _tail_positions t) p c
              Hin Hp) as [Hend Hsec].
  simpl in *. split; [unfold offset_of; simpl; by rewrite Hend|].
  intros Hdata. specialize (Hsec Hdata).
  destruct (join_elem nl _ _ Hsec) as (pre & post & Hjoin).
  exists pre, post.
  destruct (foldl (tail_one fs) ([], _tail_positions t) (_live_log_paths t)).1
    as [|s parts] eqn:Hparts; [by apply elem_of_nil in Hsec|].
  by rewrite Hjoin.
Qed.

(** The same tick when the file is the only one tailed: the display grows
    by exactly one section, or not at all when nothing is new. *)
Lemma do_tail_single fs t p c :
  _live_logs_running t = true →
  _live_log_paths t = [p] →
  read_file fs p = Some c →
  text_logs (_do_tail fs t).1 =
    text_logs t +:+
      (if bool_decide (read_text (offset_of t p) c = "") then ""
       else section_of p (read_text (offset_of t p) c)).
Proof.
  intros Hr Hpaths Hp. rewrite do_tail_running by done. rewrite Hpaths. simpl.
  unfold tail_one. rewrite Hp. simpl. fold (offset_of t p).
  destruct (bool_decide (read_text (offset_of t p) c = "")); simpl.
  - by rewrite str_app_nil_r.
  - done.
Qed.

(** What [fh.tell()] records in general: the end of the file, unless the
    file has become shorter than the recorded offset, which then stays. *)
Lemma do_tail_offset fs t p c :
  _live_logs_running t = true →
  _live_log_paths t = [p] →
  read_file fs p = Some c →
  offset_of (_do_tail fs t).1 p = Nat.max (offset_of t p) (String.length c).
Proof.
  intros Hr Hpaths Hp. rewrite do_tail_running by done. rewrite Hpaths.
  unfold offset_of. simpl. unfold tail_one. rewrite Hp. simpl.
  by rewrite lookup_insert_eq.
Qed.

(** A file that has become shorter than the recorded offset (truncated or
    replaced): nothing is appended and the recorded offset stays. *)
Lemma do_tail_shrunk fs t p c :
  _live_logs_running t = true →
  _live_log_paths t = [p] →
  read_file fs p = Some c →
  (String.length c ≤ offset_of t p)%nat →
  text_logs (_do_tail fs t).1 = text_logs t ∧
  offset_of (_do_tail fs t).1 p = offset_of t p.
Proof.
  intros Hr Hpaths Hp Hle. split.
  - rewrite (do_tail_single fs t p c) by done.
    unfold read_text. rewrite string_drop_ge by done. simpl. apply str_app_nil_r.
  - rewrite (do_tail_offset fs t p c) by done. lia.
Qed.

(** Stopping is a flag: the tick that finds it cleared does nothing and
    schedules nothing. *)
Lemma do_tail_stopped fs t : _do_tail fs (stop_live_logs t) = (stop_live_logs t, []).
Proof. done. Qed.

Lemma do_tail_unreadable fs t p :
  read_file fs p = None →
  _tail_positions (_do_tail fs t).1 !! p = _tail_positions t !! p.
Proof.
  intros Hp. unfold _do_tail. destruct (_live_logs_running t); simpl; [|done].
  by rewrite tail_loop_unreadable.
Qed.

Lemma do_tail_flag fs t : _live_logs_running (_do_tail fs t).1 = _live_logs_running t.
Proof. unfold _do_tail. by destruct (_live_logs_running t) eqn:Hr. Qed.

Lemma tail_loop_all_unreadable fs l acc :
  (∀ q, q ∈ l → read_file fs q = None) → foldl (tail_one fs) acc l = acc.
Proof.
  revert acc. induction l as [|q l IH]; intros acc Hall; simpl; [done|].
  rewrite IH.
  - unfold tail_one. rewrite (Hall q); [done|]. apply elem_of_cons. by left.
  - intros q' Hq'. apply Hall. apply elem_of_cons. by right.
Qed.

Lemma tail_ticks_paths fss t : _live_log_paths (tail_ticks fss t) = _live_log_paths t.
Proof.
  revert t. induction fss as [|fs fss IH]; intros t; simpl; [done|].
  unfold tail_ticks in *. simpl. by rewrite IH, do_tail_paths.
Qed.

Lemma start_live_logs_tailing fs t :
  strip (log_dir_var t) ≠ "" →
  log_paths_at_start fs t ≠ [] →
  start_live_logs fs t =
    _do_tail fs
      (mk_logs_tab (log_dir_var t) "" true (log_paths_at_start fs t)
         (list_to_map ((λ p, (p, 0%nat)) <$> log_paths_at_start fs t))).
Proof.
  intros Hd Hpaths. unfold start_live_logs.
  rewrite bool_decide_eq_false_2 by done.
  fold (log_paths_at_start fs t). by destruct (log_paths_at_start fs t).
Qed.

Lemma start_live_logs_nothing fs t :
  log_paths_at_start fs t = [] →
  ∃ title body, start_live_logs fs t = (t, [ShowWarning title body]).
Proof.
  intros Hpaths. unfold start_live_logs.
  destruct (bool_decide (strip (log_dir_var t) = "")); [by eauto|].
  fold (log_paths_at_start fs t). rewrite Hpaths. eauto.
Qed.

Lemma zero_positions_default (paths : list string) p :
  default 0%nat ((list_to_map ((λ p, (p, 0%nat)) <$> paths) : gmap string nat) !! p) = 0%nat.
Proof.
  induction paths as [|q paths IH]; simpl; [done|].
  destruct (decide (q = p)) as [->|Hq].
  - by rewrite lookup_insert_eq.
  - by rewrite lookup_insert_ne.
Qed.

Lemma elem_of_log_paths_at_start fs t p :
  p ∈ log_paths_at_start fs t ↔
    (p = path_join (strip (log_dir_var t)) "organizer.log" ∧ isfile fs p = true) ∨
    (p = path_join (strip (log_dir_var t)) "integrity_check.log" ∧ isfile fs p = true).
Proof.
  unfold log_paths_at_start.
  destruct (isfile fs (path_join _ "organizer.log")) eqn:Ho,
           (isfile fs (path_join _ "integrity_check.log")) eqn:Hi; simpl;
    rewrite ?elem_of_cons, ?elem_of_nil; split; intros H;
    intuition (subst; auto; congruence).
Qed.



(** C7: on a tick, a tailed file that cannot be opened or read is passed
    over: the tick returns (nothing is raised, no message box is shown), the
    recorded offset of the file stays what it was, the display and the
    offsets are those of a tick that does not visit the file, and when no
    tailed file is readable the display is unchanged.  A later tick that can
    read the file reads from that same offset. *)
Theorem unreadable_file_is_skipped_for_the_tick fs t p :
  read_file fs p = None →
  let t1 := (_do_tail fs t).1 in
  _tail_positions t1 !! p = _tail_positions t !! p ∧
  offset_of t1 p = offset_of t p ∧
  (∀ e, e ∈ (_do_tail fs t).2 → is_dialog e = false) ∧
  (let t' := mk_logs_tab (log_dir_var t) (text_logs t) (_live_logs_running t)
               (filter (λ q, q ≠ p) (_live_log_paths t)) (_tail_positions t) in
   text_logs t1 = text_logs (_do_tail fs t').1 ∧
   _tail_positions t1 = _tail_positions (_do_tail fs t').1) ∧
  ((∀ q, q ∈ _live_log_paths t → read_file fs q = None) →
   text_logs t1 = text_logs t ∧ _tail_positions t1 = _tail_positions t) ∧
  (∀ fs' c,
     _live_logs_running t = true → p ∈ _live_log_paths t →
     read_file fs' p = Some c → (offset_of t p ≤ String.length c)%nat →
     offset_of (_do_tail fs' t1).1 p = String.length c ∧
     (string_drop (offset_of t p) c ≠ "" →
      ∃ pre post,
        text_logs (_do_tail fs' t1).1 =
          text_logs t1 +:+ pre +:+ section_of p (read_text (offset_of t p) c) +:+ post)).
Proof.
  intros Hp t1.
  assert (_tail_positions t1 !! p = _tail_positions t !! p) as Hpos
    by by apply do_tail_unreadable.
  assert (offset_of t1 p = offset_of t p) as Hoff
    by (unfold offset_of; by rewrite Hpos).
  split; [done|]. split; [done|]. split; [|split; [|split]].
  - intros e. unfold _do_tail. destruct (_live_logs_running t); simpl.
    + by intros ->%list_elem_of_singleton.
    + by intros ?%elem_of_nil.
  - unfold t1, _do_tail. simpl. destruct (_live_logs_running t); simpl; [|done].
    by rewrite <-(tail_loop_skips fs _ _ p Hp).
  - intros Hall. unfold t1, _do_tail. destruct (_live_logs_running t); simpl; [|done].
    by rewrite tail_loop_all_unreadable.
  - intros fs' c Hr Hin Hp' Hle.
    destruct (do_tail_readable fs' t1 p c) as [Hend Htext].
    + unfold t1. by rewrite do_tail_flag.
    + unfold t1. by rewrite do_tail_paths.
    + done.
    + rewrite Hoff in Hend, Htext. split; [rewrite Hend; lia|done].
Qed.

(** C10: [start_live_logs] tails, among the two names organizer.log and
    integrity_check.log joined to the chosen directory, exactly those that
    are regular files at that moment; the ticks that follow never change the
    tailed set, and never record an offset for a path outside it, whatever
    appears in the file system later; and when neither file exists the state
    is left as it was (no offsets recorded, the running flag untouched), one
    warning is shown and no tick is scheduled. *)
Theorem start_live_logs_tails_only_existing_fixed_names fs t :
  let d := strip (log_dir_var t) in
  let organizer_log := path_join d "organizer.log" in
  let integrity_log := path_join d "integrity_check.log" in
  let r := start_live_logs fs t in
  (d ≠ "" → isfile fs organizer_log || isfile fs integrity_log = true →
     _live_log_paths r.1 =
       (if isfile fs organizer_log then [organizer_log] else []) ++
       (if isfile fs integrity_log then [integrity_log] else []) ∧
     (∀ p, p ∈ _live_log_paths r.1 ↔
           (p = organizer_log ∧ isfile fs p = true) ∨
           (p = integrity_log ∧ isfile fs p = true)) ∧
     _live_logs_running r.1 = true ∧
     (∀ p, p ∈ _live_log_paths r.1 → is_Some (_tail_positions r.1 !! p)) ∧
     r.2 = [After LOG_POLL_MS]) ∧
  (∀ fss, _live_log_paths (tail_ticks fss r.1) = _live_log_paths r.1) ∧
  (∀ fs' t' p, p ∉ _live_log_paths t' →
     _tail_positions (_do_tail fs' t').1 !! p = _tail_positions t' !! p ∧
     _live_log_paths (_do_tail fs' t').1 = _live_log_paths t') ∧
  (isfile fs organizer_log = false → isfile fs integrity_log = false →
     r.1 = t ∧ (∃ title body, r.2 = [ShowWarning title body]) ∧
     After LOG_POLL_MS ∉ r.2).
Proof.
  intros d organizer_log integrity_log r.
  split; [|split; [|split]].
  - intros Hd Hsome.
    assert (log_paths_at_start fs t ≠ []) as Hne.
    { unfold log_paths_at_start. fold d organizer_log integrity_log.
      destruct (isfile fs organizer_log), (isfile fs integrity_log); done. }
    unfold r. rewrite (start_live_logs_tailing fs t Hd Hne).
    rewrite do_tail_running by done. simpl.
    split; [done|]. split; [apply elem_of_log_paths_at_start|].
    split; [done|]. split; [|done].
    intros p Hin.
    assert (is_Some ((list_to_map ((λ p, (p, 0%nat)) <$> log_paths_at_start fs t)
                        : gmap string nat) !! p)) as [n Hn].
    { apply elem_of_dom. rewrite dom_list_to_map_L, <-list_fmap_compose.
      apply elem_of_list_to_set. by rewrite list_fmap_id. }
    generalize dependent (list_to_map ((λ p, (p, 0%nat)) <$> log_paths_at_start fs t)
                            : gmap string nat).
    intros m Hm. clear Hne Hsome.
    assert (∀ l acc, is_Some (acc.2 !! p) →
              is_Some ((foldl (tail_one fs) acc l).2 !! p)) as Hkeep.
    { induction l as [|q l IH]; intros acc Hacc; simpl; [done|].
      apply IH. unfold tail_one. destruct (read_file fs q); simpl; [|done].
      destruct (decide (q = p)) as [->|Hq];
        [by rewrite lookup_insert_eq|by rewrite lookup_insert_ne]. }
    apply Hkeep. simpl. by rewrite Hm.
  - intros fss. apply tail_ticks_paths.
  - intros fs' t' p Hp. split; [|apply do_tail_paths].
    unfold _do_tail. destruct (_live_logs_running t'); simpl; [|done].
    by apply tail_loop_not_tailed.
  - intros Ho Hi.
    destruct (start_live_logs_nothing fs t) as (title & body & Heq).
    { unfold log_paths_at_start. fold d organizer_log integrity_log.
      by rewrite Ho, Hi. }
    unfold r. rewrite Heq. simpl. split; [done|]. split; [eauto|].
    by intros [=]%list_elem_of_singleton.
Qed.

(** ** The theorems at concrete inputs *)

Lemma drain_keeps_order_and_completes_once_witness :
  let init := _background_run_and_stream Popen_two_lines organize_cmd "" in
  let s := run [WorkerPut; Tick; WorkerPut; WorkerPut; WorkerPut; Tick] init in
  events s =
    [Insert ("moved a.txt" +:+ nl); Insert ("moved b.txt" +:+ nl); Complete 0] ∧
  relay s = [] ∧ pending s = [].
Proof.
  intros init s.
  destruct (drain_keeps_order_and_completes_once Popen_two_lines organize_cmd
              ["moved a.txt" +:+ nl; "moved b.txt" +:+ nl] 0 "" eq_refl)
    as (_ & Hdone & _).
  apply (Hdone [WorkerPut; Tick; WorkerPut; WorkerPut; WorkerPut; Tick]).
  reflexivity.
Defined.

Lemma stream_failure_gives_diagnostic_and_code_1_witness :
  run_process Popen_read_error organize_cmd [] =
    ([Chunk ("moved a.txt" +:+ nl);
      Chunk ("[ERROR] Running command failed: [Errno 5] Input/output error" +:+ nl)],
     Return 1%Z).
Proof.
  destruct (stream_failure_gives_diagnostic_and_code_1 Popen_read_error organize_cmd []
              (mk_process ["moved a.txt" +:+ nl]
                 (Some (mk_exn OSError "[Errno 5] Input/output error")) 0)
              (mk_exn OSError "[Errno 5] Input/output error")
              eq_refl eq_refl eq_refl) as [Hrun _].
  exact Hrun.
Defined.

Lemma clear_output_keeps_queued_chunks_witness :
  display (step Tick (step ClearOutput pipeline_two_queued)) = concat_text ["a"; "b"] ∧
  relay (step Tick (step ClearOutput pipeline_two_queued)) = [].
Proof.
  destruct clear_output_keeps_queued_chunks as (_ & _ & _ & Hshown).
  apply (Hshown pipeline_two_queued ["a"; "b"]); reflexivity.
Defined.

Lemma organize_validation_failure_launches_nothing_witness :
  let r := run_organizer "/home/user" fs_home organizer_tab_blank in
  (∀ e, e ∈ res_effects r → is_launch e = false) ∧
  res_state r = organizer_tab_blank ∧ res_fs r = fs_home ∧ res_raised r = None.
Proof.
  intros r.
  destruct (organize_validation_failure_launches_nothing "/home/user" fs_home
              organizer_tab_blank (or_introl eq_refl)) as (_ & Hrest).
  exact Hrest.
Defined.

Lemma organize_creates_output_before_launch_witness :
  let r := run_organizer "/home/user" fs_home organizer_tab_ready in
  isdir fs_home "/home/user/out/sorted" = false ∧
  isdir (res_fs r) "/home/user/out/sorted" = true ∧
  isdir (res_fs r) "/home/user/out" = true ∧
  res_effects r =
    [MakeDirs "/home/user/out/sorted";
     ThreadStart ["/home/user/organize_files.sh"; "/home/user/in";
                  "/home/user/out/sorted"]].
Proof.
  intros r.
  assert (strip (src_var organizer_tab_ready) ≠ "") as Hs by (vm_compute; discriminate).
  assert (strip (out_var organizer_tab_ready) ≠ "") as Ho by (vm_compute; discriminate).
  destruct (organize_creates_output_before_launch "/home/user" fs_home
              organizer_tab_ready Hs Ho eq_refl) as (_ & Hmk & _).
  destruct (Hmk (res_fs r) eq_refl) as (_ & Hdir & _ & Heff & _).
  split; [reflexivity|]. split; [exact Hdir|]. split; [reflexivity|exact Heff].
Defined.

Lemma refresh_backups_lists_archives_newest_first_witness :
  refresh_backups fs_backups "/data" ["stale"] =
    ["backup_2024.zip"; "backup_2023.zip"].
Proof.
  destruct (refresh_backups_lists_archives_newest_first fs_backups "/data" ["stale"])
    as (_ & _ & Hexample).
  apply (Hexample ["backup_2023.zip"; "notes.txt"; "backup_2024.zip"]).
  - vm_compute; discriminate.
  - reflexivity.
  - symmetry.
    apply (Permutation_cons_append ["backup_2023.zip"; "notes.txt"] "backup_2024.zip").
Defined.


Lemma unreadable_file_is_skipped_for_the_tick_witness :
  offset_of (_do_tail fs_no_logs logs_tab_tailing).1 "/logs/organizer.log" =
    offset_of logs_tab_tailing "/logs/organizer.log" ∧
  offset_of (_do_tail (fs_with_log "XY") (_do_tail fs_no_logs logs_tab_tailing).1).1
    "/logs/organizer.log" = String.length "XY".
Proof.
  destruct (unreadable_file_is_skipped_for_the_tick fs_no_logs logs_tab_tailing
              "/logs/organizer.log" eq_refl) as (_ & Hoff & _ & _ & _ & Hresume).
  split; [exact Hoff|].
  assert ("/logs/organizer.log" ∈ _live_log_paths logs_tab_tailing) as Hin
    by (vm_compute; constructor).
  assert (offset_of logs_tab_tailing "/logs/organizer.log" ≤ String.length "XY")%nat
    as Hle by (vm_compute; lia).
  exact (proj1 (Hresume (fs_with_log "XY") "XY" eq_refl Hin eq_refl Hle)).
Defined.

Lemma start_live_logs_tails_only_existing_fixed_names_witness :
  _live_log_paths (start_live_logs (fs_with_log "X") logs_tab_idle).1 =
    ["/logs/organizer.log"] ∧
  (start_live_logs fs_no_logs logs_tab_idle).1 = logs_tab_idle ∧
  After LOG_POLL_MS ∉ (start_live_logs fs_no_logs logs_tab_idle).2.
Proof.
  destruct (start_live_logs_tails_only_existing_fixed_names (fs_with_log "X")
              logs_tab_idle) as (Hsome & _).
  destruct (start_live_logs_tails_only_existing_fixed_names fs_no_logs logs_tab_idle)
    as (_ & _ & _ & Hnone).
  assert (strip (log_dir_var logs_tab_idle) ≠ "") as Hd by (vm_compute; discriminate).
  destruct (Hsome Hd eq_refl) as (Hpaths & _).
  destruct (Hnone eq_refl eq_refl) as (Hsame & _ & Hnotick).
  split; [exact Hpaths|]. split; [exact Hsame|exact Hnotick].
Defined.

(** * Further properties *)

(** ** Process Runner and drain, for every behaviour of the process *)

Lemma run_process_append Popen cmd q :
  run_process Popen cmd q =
    (q ++ (run_process Popen cmd []).1, (run_process Popen cmd []).2).
Proof.
  unfold run_process. destruct (Popen cmd) as [proc|e].
  - destruct (stream_error proc) as [e|]; simpl; [|done].
    destruct (is_Exception e); simpl; [|done]. by rewrite <-app_assoc.
  - destruct (is_FileNotFoundError e); [|by rewrite app_nil_r].
    destruct cmd; simpl; [by rewrite app_nil_r|done].
Qed.

Lemma run_process_chunks Popen cmd :
  ∃ chunks, (run_process Popen cmd []).1 = Chunk <$> chunks.
Proof.
  unfold run_process. destruct (Popen cmd) as [proc|e].
  - destruct (stream_error proc) as [e|]; simpl; [|by eexists].
    destruct (is_Exception e); simpl; [|by eexists].
    eexists (stdout_lines proc ++ [_]). by rewrite fmap_app.
  - destruct (is_FileNotFoundError e); [|by exists []].
    destruct cmd; simpl; [by exists []|by eexists [_]].
Qed.

(** X1: [run_process] only appends to the queue it is given, and appends text
    chunks only: what was queued stays in front, in order, neither the
    sentinel nor a completion tuple is put by the runner itself, and what it
    appends and returns does not depend on what was queued. *)
Theorem run_process_only_appends_chunks Popen cmd (q : list item) :
  ∃ chunks,
    (run_process Popen cmd q).1 = q ++ (Chunk <$> chunks) ∧
    (run_process Popen cmd []).1 = Chunk <$> chunks ∧
    (run_process Popen cmd q).2 = (run_process Popen cmd []).2.
Proof.
  destruct (run_process_chunks Popen cmd) as [chunks Hc]. exists chunks.
  rewrite (run_process_append Popen cmd q). simpl. by rewrite Hc.
Qed.

Lemma drain_trace_step (tr : list ui_event) a s :
  (if polling s then events s ++ ui_of (relay s ++ pending s) = tr
   else events s = tr) →
  (if polling (step a s) then
     events (step a s) ++ ui_of (relay (step a s) ++ pending (step a s)) = tr
   else events (step a s) = tr).
Proof.
  destruct s as [pe re di ev po]. destruct a; simpl.
  - destruct pe as [|i pe]; simpl; [done|]. by rewrite <-app_assoc.
  - destruct po; simpl; [|done]. rewrite poll_spec.
    destruct (has_rc re) eqn:Hrc; simpl; intros <-.
    + by rewrite ui_of_app_rc.
    + by rewrite ui_of_app_no_rc, app_assoc.
  - done.
Qed.

Lemma drain_trace_run (tr : list ui_event) sched s :
  (if polling s then events s ++ ui_of (relay s ++ pending s) = tr
   else events s = tr) →
  events (run sched s) `prefix_of` tr ∧
  (polling (run sched s) = false → events (run sched s) = tr).
Proof.
  revert s. induction sched as [|a sched IH]; intros s Hs.
  - simpl. destruct (polling s); [|by subst].
    split; [|done]. rewrite <-Hs. by apply prefix_app_r.
  - apply IH, drain_trace_step, Hs.
Qed.

Lemma worker_trace Popen cmd chunks :
  (run_process Popen cmd []).1 = Chunk <$> chunks →
  ui_of (worker Popen cmd []).1 =
    (Insert <$> chunks) ++
    match (run_process Popen cmd []).2 with
    | Return rc => [Complete rc]
    | Raise _ => []
    end.
Proof.
  intros Hc. unfold worker. destruct (run_process Popen cmd []) as [q [rc|e]];
    simpl in *; subst q.
  - apply (ui_of_production chunks rc).
  - by rewrite ui_of_chunks, app_nil_r.
Qed.

(** X2: Whatever the process does (it may fail to launch, fail while read, or
    exit), and under every interleaving of puts, runs of [poll] and
    clearings: the UI events are a prefix of "insert each chunk the runner
    enqueued, in order, then the callback with the returned code if the
    runner returned".  So the callback is never called twice, never before
    an insert of the invocation, and never at all when the runner raised. *)
Theorem drain_never_completes_twice Popen cmd w sched :
  ∃ chunks,
    (run_process Popen cmd []).1 = Chunk <$> chunks ∧
    events (run sched (_background_run_and_stream Popen cmd w))
      `prefix_of`
      (Insert <$> chunks) ++
      match (run_process Popen cmd []).2 with
      | Return rc => [Complete rc]
      | Raise _ => []
      end.
Proof.
  destruct (run_process_chunks Popen cmd) as [chunks Hc]. exists chunks.
  split; [done|]. rewrite <-(worker_trace Popen cmd chunks Hc).
  by apply drain_trace_run.
Qed.

Lemma no_rc_keeps_polling sched s :
  has_rc (relay s ++ pending s) = false → polling s = true →
  polling (run sched s) = true.
Proof.
  revert s. induction sched as [|a sched IH]; intros [pe re di ev po] Hrc Hp;
    simpl in *; [done|]. subst po.
  apply IH; destruct a; simpl.
  - destruct pe; simpl; [done|]. by rewrite <-app_assoc.
  - rewrite poll_spec. rewrite has_rc_app in Hrc.
    apply orb_false_iff in Hrc as [-> Hpe]. by simpl.
  - done.
  - by destruct pe.
  - rewrite poll_spec. rewrite has_rc_app in Hrc.
    apply orb_false_iff in Hrc as [-> Hpe]. by simpl.
  - done.
Qed.

(** X3: When an exception leaves [run_process] (a launch failure other than a
    missing file, an empty command, or an error while reading that is not an
    [Exception]), the worker thread ends without the completion tuple, and
    the drain loop keeps rescheduling itself under every schedule: the
    callback is never called. *)
Theorem runner_exception_never_completes Popen cmd e w sched :
  (run_process Popen cmd []).2 = Raise e →
  polling (run sched (_background_run_and_stream Popen cmd w)) = true ∧
  (∀ rc, Complete rc ∉ events (run sched (_background_run_and_stream Popen cmd w))).
Proof.
  intros Hraise.
  destruct (run_process_chunks Popen cmd) as [chunks Hc].
  assert ((worker Popen cmd []).1 = Chunk <$> chunks) as Hw.
  { unfold worker. destruct (run_process Popen cmd []) as [q [rc|e']];
      simpl in *; [done|by subst]. }
  split.
  - apply no_rc_keeps_polling; [|done]. simpl. rewrite Hw. apply has_rc_chunks.
  - intros rc Hin.
    destruct (drain_trace_run (ui_of (worker Popen cmd []).1) sched
                (_background_run_and_stream Popen cmd w) eq_refl) as [Hpre _].
    rewrite (worker_trace Popen cmd chunks Hc), Hraise, app_nil_r in Hpre.
    destruct Hpre as [rest Hrest].
    assert (Complete rc ∈ Insert <$> chunks) as Hbad.
    { rewrite Hrest. apply elem_of_app. by left. }
    apply list_elem_of_fmap in Hbad as (? & ? & ?). done.
Qed.

Lemma text_of_app_no_rc q1 q2 :
  has_rc q1 = false → text_of (q1 ++ q2) = text_of q1 +:+ text_of q2.
Proof.
  induction q1 as [|[s| |rc] q1 IH]; simpl; intros H; try done.
  - by rewrite IH, str_app_assoc.
  - by apply IH.
Qed.

Lemma after_rc_app_no_rc q1 q2 : has_rc q1 = false → after_rc (q1 ++ q2) = after_rc q2.
Proof. induction q1 as [|[s| |rc] q1 IH]; simpl; intros H; auto; done. Qed.

(** X4: Draining is independent of how the items fall into runs of [poll]: when
    the first part holds no completion tuple, one run over both parts gives
    the queue, display, events and status of a run over the first part
    followed by a run over the second. *)
Theorem poll_in_two_runs (q1 q2 : list item) w evs :
  has_rc q1 = false →
  poll (q1 ++ q2) w evs =
    poll (((poll q1 w evs).1.1.1) ++ q2) ((poll q1 w evs).1.1.2) ((poll q1 w evs).1.2).
Proof.
  intros Hrc. rewrite !poll_spec, Hrc. simpl.
  rewrite has_rc_app, Hrc. simpl.
  rewrite text_of_app_no_rc, ui_of_app_no_rc, after_rc_app_no_rc by done.
  by rewrite str_app_assoc, app_assoc.
Qed.

Lemma finished_step a s :
  polling s = false →
  polling (step a s) = false ∧ events (step a s) = events s ∧
  (a ≠ ClearOutput → display (step a s) = display s).
Proof.
  destruct s as [pe re di ev po]; simpl. intros ->.
  destruct a; simpl; [by destruct pe|done|done].
Qed.

(** X5: Once the callback has been called the drain is over for good: later
    puts, timer ticks and clearings never call it again and never insert
    anything; items put after the completion tuple are never shown. *)
Theorem drain_is_over_after_completion sched s :
  polling s = false →
  polling (run sched s) = false ∧
  events (run sched s) = events s ∧
  (ClearOutput ∉ sched → display (run sched s) = display s).
Proof.
  revert s. induction sched as [|a sched IH]; intros s Hs; [done|].
  destruct (finished_step a s Hs) as (Hp & He & Hd).
  destruct (IH (step a s) Hp) as (Hp' & He' & Hd').
  split; [done|]. split; [by rewrite <-He|].
  intros [Ha Hno]%not_elem_of_cons.
  simpl. fold (run sched (step a s)). rewrite Hd' by done. by apply Hd.
Qed.

(** ** Organizer and integrity runs, from the button to the callback *)

Lemma organizer_inserts chunks t :
  foldl organizer_on_event t (Insert <$> chunks) =
    mk_organizer_tab (src_var t) (out_var t) (run_btn_enabled t) (status_var t)
      (progress_running t) (text_out t +:+ concat_text chunks).
Proof.
  revert t. induction chunks as [|c cs IH]; intros t.
  - simpl. rewrite str_app_nil_r. by destruct t.
  - rewrite fmap_cons. simpl. rewrite IH. simpl.
    rewrite str_app_assoc. do 2 f_equal.
    by rewrite <-!text_of_chunks.
Qed.

Lemma finished_trace Popen cmd chunks rc w sched :
  run_process Popen cmd [] = (Chunk <$> chunks, Return rc) →
  polling (run sched (_background_run_and_stream Popen cmd w)) = false →
  events (run sched (_background_run_and_stream Popen cmd w)) =
    (Insert <$> chunks) ++ [Complete rc].
Proof.
  intros Hrun Hp.
  destruct (drain_trace_run (ui_of (worker Popen cmd []).1) sched
              (_background_run_and_stream Popen cmd w) eq_refl) as [_ Hdone].
  rewrite (Hdone Hp), (worker_production _ _ _ _ Hrun). apply ui_of_production.
Qed.

(** X6: A launched organizer run locks the tab (button disabled, progress bar
    running, output cleared) and, whenever the runner returns, the end of
    the drain unlocks it: the button is enabled again, the progress bar is
    stopped, the status tells success exactly when the code is 0, the two
    path entries are as the user left them, and the output, unless it was
    cleared meanwhile, shows the chunks of this run and nothing else. *)
Theorem organizer_run_locks_then_unlocks
    BASE_DIR Popen fs t (chunks : list string) (rc : Z) sched :
  let r := run_organizer BASE_DIR fs t in
  let cmd := [ORGANIZE_SCRIPT BASE_DIR; strip (src_var t); strip (out_var t)] in
  let s := run sched (_background_run_and_stream Popen cmd (text_out (res_state r))) in
  let t' := foldl organizer_on_event (res_state r) (events s) in
  ThreadStart cmd ∈ res_effects r →
  run_process Popen cmd [] = (Chunk <$> chunks, Return rc) →
  (run_btn_enabled (res_state r) = false ∧
   progress_running (res_state r) = true ∧
   text_out (res_state r) = "") ∧
  (polling s = false →
   run_btn_enabled t' = true ∧
   progress_running t' = false ∧
   status_var t' =
     (if bool_decide (rc = 0%Z) then "Organizer completed successfully"
      else "Organizer finished with errors") ∧
   src_var t' = src_var t ∧ out_var t' = out_var t) ∧
  (polling s = false → ClearOutput ∉ sched → display s = concat_text chunks).
Proof.
  intros r cmd s t' Hlaunch Hrun.
  assert (res_state r =
            mk_organizer_tab (src_var t) (out_var t) false "Running organizer..."
              true "") as Hst.
  { unfold r, run_organizer in *.
    destruct (bool_decide _ || bool_decide _); simpl in *;
      [by apply list_elem_of_singleton in Hlaunch|].
    destruct (isdir fs _); simpl in *;
      [|by apply list_elem_of_singleton in Hlaunch].
    destruct (makedirs fs _); simpl in *; [done|by apply elem_of_nil in Hlaunch]. }
  split; [by rewrite Hst|]. split.
  - intros Hp. unfold t', s in *.
    rewrite (finished_trace Popen cmd chunks rc _ sched Hrun Hp).
    rewrite foldl_app, organizer_inserts, Hst. simpl.
    unfold _organizer_complete. by destruct (bool_decide (rc = 0%Z)).
  - intros Hp Hno. unfold s in *.
    rewrite (display_after_inserts sched "" _ Hno) by by rewrite Hst.
    rewrite (finished_trace Popen cmd chunks rc _ sched Hrun Hp).
    rewrite inserted_text_app, inserted_text_inserts. simpl.
    by rewrite str_app_nil_r.
Qed.

(** X7: [run_integrity] starts the check exactly when the stripped directory
    entry is not empty and names an existing directory; it then passes the
    verify script and that directory, disables the button and clears the
    output.  Otherwise it shows one message box and leaves the tab alone. *)
Theorem run_integrity_launches_iff_directory BASE_DIR fs t :
  let d := strip (verify_dir_var t) in
  let r := run_integrity BASE_DIR fs t in
  ((∃ cmd, ThreadStart cmd ∈ r.2) ↔ d ≠ "" ∧ isdir fs d = true) ∧
  (d ≠ "" → isdir fs d = true →
     r.2 = [ThreadStart [VERIFY_SCRIPT BASE_DIR; d]] ∧
     verify_btn_enabled r.1 = false ∧ integrity_progress_running r.1 = true ∧
     text_verify r.1 = "" ∧ verify_dir_var r.1 = verify_dir_var t) ∧
  (d = "" ∨ isdir fs d = false →
     r.1 = t ∧ ∃ e, r.2 = [e] ∧ is_dialog e = true).
Proof.
  intros d r. unfold r, run_integrity. fold d.
  destruct (bool_decide (d = "")) eqn:Hd.
  - apply bool_decide_eq_true in Hd. simpl. split; [|split].
    + split; [|by intros [? _]].
      by intros [cmd Hin%list_elem_of_singleton].
    + done.
    + eauto.
  - apply bool_decide_eq_false in Hd. destruct (isdir fs d) eqn:Hdir; simpl.
    + split; [|split].
      * split; [done|]. intros _. eexists. by apply list_elem_of_singleton.
      * done.
      * by intros [?|?].
    + split; [|split].
      * split; [|by intros [_ ?]].
        by intros [cmd Hin%list_elem_of_singleton].
      * done.
      * eauto.
Qed.

Lemma integrity_inserts chunks (acc : integrity_tab * list notice) :
  foldl integrity_on_event acc (Insert <$> chunks) =
    (mk_integrity_tab (verify_dir_var acc.1) (verify_btn_enabled acc.1)
       (integrity_status acc.1) (integrity_progress_running acc.1)
       (text_verify acc.1 +:+ concat_text chunks), acc.2).
Proof.
  revert acc. induction chunks as [|c cs IH]; intros [t ns].
  - simpl. rewrite str_app_nil_r. by destruct t.
  - rewrite fmap_cons. simpl. rewrite IH. simpl.
    rewrite str_app_assoc. do 3 f_equal.
    by rewrite <-!text_of_chunks.
Qed.

(** X8: A missing verify script is reported as a failed verification: when the
    launch raises [FileNotFoundError], the integrity run ends with the
    "script not found" diagnostic in the output, the status "Integrity
    FAILED" and the warning that some files failed verification, the same
    as for a check that ran and found mismatches. *)
Theorem missing_verify_script_reads_as_failed_check
    BASE_DIR Popen fs t e sched :
  let d := strip (verify_dir_var t) in
  let cmd := [VERIFY_SCRIPT BASE_DIR; d] in
  let r := run_integrity BASE_DIR fs t in
  let s := run sched (_background_run_and_stream Popen cmd (text_verify r.1)) in
  let fin := foldl integrity_on_event (r.1, []) (events s) in
  d ≠ "" → isdir fs d = true →
  Popen cmd = LaunchRaises e → is_FileNotFoundError e = true →
  polling s = false →
  integrity_status fin.1 = "Integrity FAILED" ∧
  verify_btn_enabled fin.1 = true ∧
  integrity_progress_running fin.1 = false ∧
  text_verify fin.1 =
    "[ERROR] Script not found: " +:+ VERIFY_SCRIPT BASE_DIR +:+ nl +:+ exn_msg e +:+ nl ∧
  fin.2 = [Basic (ShowWarning "Integrity" "Some files failed verification. Check logs.")].
Proof.
  intros d cmd r s fin Hd Hdir HP He Hp.
  assert (r.1 = mk_integrity_tab (verify_dir_var t) false
                  "Running integrity check..." true "") as Hst.
  { unfold r, run_integrity. fold d.
    by rewrite bool_decide_eq_false_2, Hdir by done. }
  pose proof (run_process_not_found Popen _ _ e [] HP He) as Hrun.
  unfold fin, s in *.
  rewrite (finished_trace Popen cmd [_] 127%Z _ sched Hrun Hp).
  rewrite foldl_app, integrity_inserts, Hst. simpl. done.
Qed.

(** ** What the organizer run leaves of the file system *)

Lemma find_entry_app_Some q es l x :
  find_entry q es = Some x → find_entry q (es ++ l) = Some x.
Proof.
  induction es as [|[n y] es IH]; simpl; [done|].
  by destruct (bool_decide (n = q)).
Qed.

Lemma find_set_entry_ne c q x es :
  q ≠ c → find_entry q (set_entry c x es) = find_entry q es.
Proof.
  intros Hq. induction es as [|[n y] es IH]; simpl.
  - by rewrite bool_decide_eq_false_2.
  - destruct (bool_decide (n = c)) eqn:Hn; simpl.
    + apply bool_decide_eq_true in Hn as ->.
      by rewrite bool_decide_eq_false_2.
    + by rewrite IH.
Qed.

(** [os.makedirs] keeps what exists: a path that led to a regular file
    leads to the same file, one that led to a directory leads to a
    directory. *)
Lemma makedirs_at_keeps cs n n' ps x :
  makedirs_at cs n = Some n' →
  resolve ps n = Some x →
  ∃ x', resolve ps n' = Some x' ∧
        match x with
        | File r c => x' = File r c
        | Dir _ => ∃ es', x' = Dir es'
        end.
Proof.
  revert n n' ps x. induction cs as [|c cs IH]; intros [r b|es] n' ps x Hmk Hres;
    simplify_eq/=.
  - exists x. split; [done|]. destruct x; eauto.
  - destruct ps as [|q ps]; simplify_eq/=.
    { destruct (find_entry c es) as [child|]; [|by simplify_eq/=; eauto].
      destruct (makedirs_at cs child); simplify_eq/=; eauto. }
    destruct (find_entry q es) as [child0|] eqn:Hq; [|done].
    destruct (find_entry c es) as [child|] eqn:Hc.
    + destruct (makedirs_at cs child) as [child'|] eqn:Hch; simplify_eq/=.
      destruct (decide (q = c)) as [->|Hne].
      * rewrite find_set_entry. simplify_eq. by eapply IH.
      * rewrite find_set_entry_ne, Hq by done. exists x.
        split; [done|]. destruct x; eauto.
    + simplify_eq/=. rewrite (find_entry_app_Some _ _ _ _ Hq). exists x.
      split; [done|]. destruct x; eauto.
Qed.

Lemma run_organizer_fs BASE_DIR fs t :
  res_fs (run_organizer BASE_DIR fs t) = fs ∨
  (strip (out_var t) ≠ "" ∧
   makedirs_at (split_path (strip (out_var t))) fs =
     Some (res_fs (run_organizer BASE_DIR fs t))).
Proof.
  unfold run_organizer.
  destruct (bool_decide (strip (src_var t) = "")); simpl; [by left|].
  destruct (bool_decide (strip (out_var t) = "")) eqn:Ho; simpl; [by left|].
  apply bool_decide_eq_false in Ho.
  destruct (isdir fs _); simpl; [|by left].
  unfold makedirs. rewrite bool_decide_eq_false_2 by done.
  destruct (makedirs_at _ fs) eqn:Hmk; simpl; [by right|by left].
Qed.

(** X9: Whatever its outcome, [run_organizer] itself removes and alters
    nothing: every file readable before the call is readable with the same
    content after it, every regular file is still one, and every directory
    is still a directory. *)
Theorem run_organizer_keeps_existing_files BASE_DIR fs t p :
  let fs' := res_fs (run_organizer BASE_DIR fs t) in
  (∀ c, read_file fs p = Some c → read_file fs' p = Some c) ∧
  (isfile fs p = true → isfile fs' p = true) ∧
  (isdir fs p = true → isdir fs' p = true).
Proof.
  intros fs'. unfold fs'.
  destruct (run_organizer_fs BASE_DIR fs t) as [->|[Hout Hmk]]; [done|].
  unfold read_file, isfile, isdir, lookup_path.
  destruct (bool_decide (p = "")); [done|].
  destruct (resolve (split_path p) fs) as [x|] eqn:Hres;
    [|by repeat split; intros; simplify_eq].
  destruct (makedirs_at_keeps _ _ _ _ _ Hmk Hres) as (x' & -> & Hx).
  destruct x as [r c|es].
  - by subst x'.
  - destruct Hx as [es' ->]. by repeat split; intros; simplify_eq.
Qed.

(** ** Paths of directory entries *)

Lemma split_path_from_slash cur a s :
  split_path_from cur (a +:+ String slash s) =
    split_path_from cur a ++ split_path_from "" s.
Proof.
  revert cur. induction a as [|c a IH]; intros cur.
  - done.
  - rewrite str_app_cons. simpl. destruct (bool_decide (c = slash)).
    + by rewrite IH, app_assoc.
    + apply IH.
Qed.

Lemma split_path_from_name cur name :
  no_slash name = true → split_path_from cur name = flush_component (cur +:+ name).
Proof.
  revert cur. induction name as [|c name IH]; intros cur; simpl.
  - by rewrite str_app_nil_r.
  - intros [Hc Hn]%andb_true_iff. apply negb_true_iff in Hc. rewrite Hc.
    rewrite IH by done. by rewrite str_app_assoc.
Qed.

Lemma string_drop_suffix n s t : string_drop n s = t → ∃ a, s = a +:+ t.
Proof.
  revert s. induction n as [|n IH]; intros s Hs.
  - exists "". by rewrite string_drop_0 in Hs.
  - destruct s as [|c s]; simpl in Hs; [by exists ""|].
    destruct (IH s Hs) as [a ->]. by exists (String c a).
Qed.

Lemma endswith_suffix s t : endswith s t = true → ∃ a, s = a +:+ t.
Proof.
  unfold endswith. intros [_ Heq%String.eqb_eq]%andb_true_iff.
  by eapply string_drop_suffix.
Qed.

Lemma starts_with_slash_name name :
  no_slash name = true → starts_with_slash name = false.
Proof.
  destruct name as [|c name]; simpl; [done|].
  intros [Hc _]%andb_true_iff. by apply negb_true_iff in Hc.
Qed.

(** Joining a directory and an entry name adds one component. *)
Lemma split_path_join d name :
  no_slash name = true → name ≠ "" →
  split_path (path_join d name) = split_path d ++ [name].
Proof.
  intros Hn Hne. unfold path_join, split_path.
  rewrite (starts_with_slash_name name Hn).
  assert (split_path_from "" name = [name]) as Hname.
  { rewrite split_path_from_name by done. unfold flush_component.
    by rewrite bool_decide_eq_false_2. }
  destruct (bool_decide (d = "")) eqn:Hd; simpl.
  { apply bool_decide_eq_true in Hd as ->. done. }
  destruct (endswith d "/") eqn:Hend.
  - destruct (endswith_suffix _ _ Hend) as [a ->].
    rewrite str_app_assoc. change ("/" +:+ name) with (String slash name).
    change "/" with (String slash ""). rewrite !split_path_from_slash.
    simpl. by rewrite app_nil_r, Hname.
  - change ("/" +:+ name) with (String slash name).
    by rewrite split_path_from_slash, Hname.
Qed.

Lemma path_join_nonempty d name : name ≠ "" → path_join d name ≠ "".
Proof.
  intros Hne. unfold path_join. destruct (starts_with_slash name); [done|].
  destruct (_ || _); destruct d; simpl; try done; by destruct name.
Qed.

Lemma resolve_app ps qs n :
  resolve (ps ++ qs) n =
    match resolve ps n with
    | Some x => resolve qs x
    | None => None
    end.
Proof.
  revert n. induction ps as [|c ps IH]; intros n; simpl; [done|].
  destruct n as [r b|es]; [done|]. destruct (find_entry c es); [apply IH|done].
Qed.

(** Looking up an entry name joined to a directory is looking the name up
    among the entries of the directory. *)
Lemma lookup_path_join fs d name es :
  no_slash name = true → name ≠ "" →
  lookup_path fs d = Some (Dir es) →
  lookup_path fs (path_join d name) = find_entry name es.
Proof.
  intros Hn Hne. unfold lookup_path at 1.
  destruct (bool_decide (d = "")); [done|]. intros Hd.
  unfold lookup_path. rewrite bool_decide_eq_false_2 by by apply path_join_nonempty.
  rewrite split_path_join, resolve_app, Hd by done. simpl.
  by destruct (find_entry name es).
Qed.

(** ** Backup list and restore *)

(** X10: The list box after [refresh_backups] depends on the set of names in
    the backups directory only: neither the order in which the system lists
    them nor what the list box held before makes a difference. *)
Theorem refresh_backups_ignores_listing_order
    fs1 fs2 bd (old1 old2 names1 names2 : list string) :
  strip bd ≠ "" →
  listdir fs1 (path_join (strip bd) "backups") = Some names1 →
  listdir fs2 (path_join (strip bd) "backups") = Some names2 →
  names1 ≡ₚ names2 →
  refresh_backups fs1 bd old1 = refresh_backups fs2 bd old2.
Proof.
  intros Hd H1 H2 Hperm.
  rewrite (refresh_backups_listed _ _ _ _ Hd H1), (refresh_backups_listed _ _ _ _ Hd H2).
  by rewrite (sorted_reverse_order_independent _ _ Hperm).
Qed.

(** X11: [restore_selected_backup] calls the extraction exactly when an entry is
    selected, its archive is a regular file, a destination was chosen and
    the confirmation was answered yes; the extraction then comes after both
    dialogs.  An [Exception] of the extraction never leaves the callback: it
    ends in the "Restore failed" box. *)
Theorem restore_extracts_only_after_confirmation
    fs bd (bl : list string) (sel : list nat) dest yes extractall :
  let r := restore_selected_backup fs bd bl sel dest yes extractall in
  let backup_path i :=
    path_join (path_join (strip bd) "backups") (default "" (bl !! i)) in
  ((∃ n, n ∈ r.1 ∧ is_extract n = true) ↔
   (∃ i rest, sel = i :: rest ∧ isfile fs (backup_path i) = true ∧
              dest ≠ "" ∧ yes = true)) ∧
  (∀ n, n ∈ r.1 → is_extract n = true →
     ∃ i rest title question after,
       sel = i :: rest ∧
       r.1 = AskDirectory title :: AskYesNo "Confirm restore" question ::
             ExtractAll (backup_path i) dest :: after) ∧
  (∀ e, r.2 = Some e → is_Exception e = false) ∧
  (∀ i rest e, sel = i :: rest → isfile fs (backup_path i) = true →
     dest ≠ "" → yes = true →
     extractall (backup_path i) dest = Some e → is_Exception e = true →
     r.2 = None ∧
     last r.1 = Some (Basic (ShowError "Restore failed"
                               ("Failed to restore: " +:+ exn_msg e)))).
Proof.
  intros r backup_path. unfold r, restore_selected_backup.
  destruct sel as [|i rest]; simpl.
  { split; [|split; [|split]]; try done.
    - split; [|by intros (? & ? & ? & _)].
      by intros (n & ->%list_elem_of_singleton & ?).
    - by intros n ->%list_elem_of_singleton. }
  fold (backup_path i).
  destruct (isfile fs (backup_path i)) eqn:Hfile; simpl.
  2:{ split; [|split; [|split]]; try done.
      - split; [|by intros (? & ? & [= <- <-] & ? & _); congruence].
        by intros (n & ->%list_elem_of_singleton & ?).
      - by intros n ->%list_elem_of_singleton.
      - intros ??? [= <- <-]. congruence. }
  destruct (bool_decide (dest = "")) eqn:Hdest; simpl.
  { apply bool_decide_eq_true in Hdest.
    split; [|split; [|split]]; try done.
    - split; [|by intros (? & ? & _ & _ & ? & _)].
      by intros (n & ->%list_elem_of_singleton & ?).
    - by intros n ->%list_elem_of_singleton. }
  apply bool_decide_eq_false in Hdest.
  destruct yes; simpl.
  2:{ split; [|split; [|split]]; try done.
      - split; [|by intros (? & ? & _ & _ & _ & ?)].
        by intros (n & [-> | ->%list_elem_of_singleton]%elem_of_cons & ?).
      - by intros n [-> | ->%list_elem_of_singleton]%elem_of_cons. }
  assert (∀ after opt,
    ((∃ n, n ∈ (AskDirectory "Select folder to restore backup into"
                 :: AskYesNo "Confirm restore"
                      ("Restore " +:+ default "" (bl !! i) +:+ " into " +:+ dest +:+
                       "? This may overwrite files.")
                 :: ExtractAll (backup_path i) dest :: after, opt : option exn).1
            ∧ is_extract n = true) ↔
     (∃ i0 rest0, i :: rest = i0 :: rest0 ∧ isfile fs (backup_path i0) = true ∧
                  dest ≠ "" ∧ true = true))) as Hiff.
  { intros after opt. split; [by intros _; exists i, rest|].
    intros _. exists (ExtractAll (backup_path i) dest). split; [|done].
    simpl. rewrite !elem_of_cons. auto. }
  destruct (extractall (backup_path i) dest) as [e|] eqn:Hex.
  - destruct (is_Exception e) eqn:He; simpl.
    + split; [apply (Hiff _ None)|]. split; [by intros; eauto 10|].
      split; [done|]. intros i0 rest0 e0 [= <- <-] _ _ _ Hex0 _.
      rewrite Hex in Hex0. by simplify_eq.
    + split; [apply (Hiff _ (Some e))|]. split; [by intros; eauto 10|].
      split; [by intros e0 [= <-]|].
      intros i0 rest0 e0 [= <- <-] _ _ _ Hex0 He0.
      rewrite Hex in Hex0. simplify_eq. congruence.
  - split; [apply (Hiff _ None)|]. split; [by intros; eauto 10|].
    split; [done|]. intros i0 rest0 e0 [= <- <-] _ _ _ Hex0 _.
    by rewrite Hex in Hex0.
Qed.

Lemma listdir_entries fs p names :
  listdir fs p = Some names → ∃ es, lookup_path fs p = Some (Dir es) ∧ names = fst <$> es.
Proof.
  unfold listdir. destruct (lookup_path fs p) as [[r c|es]|]; try done.
  intros [= <-]. eauto.
Qed.

(** X12: Listing does not look at what an entry is, restoring does: for an
    entry shown by [refresh_backups] and selected while the directory is
    unchanged, the restore goes on to ask for the destination when the entry
    is a regular file, and reports "Not found" without asking anything when
    it is a directory that merely has an archive name. *)
Theorem listed_entry_restores_only_if_regular_file
    fs bd (old : list string) i rest name es dest yes extractall :
  let backups_dir := path_join (strip bd) "backups" in
  let r := restore_selected_backup fs bd (refresh_backups fs bd old) (i :: rest)
             dest yes extractall in
  strip bd ≠ "" →
  lookup_path fs backups_dir = Some (Dir es) →
  refresh_backups fs bd old !! i = Some name →
  no_slash name = true → name ≠ "" →
  name ∈ (fst <$> es) ∧
  (∀ rd c, find_entry name es = Some (File rd c) →
     ∃ after, r.1 = AskDirectory "Select folder to restore backup into" :: after) ∧
  (∀ es', find_entry name es = Some (Dir es') →
     r = ([Basic (ShowError "Not found" (path_join backups_dir name))], None)).
Proof.
  intros backups_dir r Hd Hdir Hi Hn Hne.
  assert (isfile fs (path_join backups_dir name) =
            match find_entry name es with Some (File _ _) => true | _ => false end)
    as Hfile.
  { unfold isfile. by rewrite (lookup_path_join fs backups_dir name es Hn Hne Hdir). }
  split; [|split].
  - assert (listdir fs backups_dir = Some (fst <$> es)) as Hls
      by (unfold listdir; by rewrite Hdir).
    apply list_elem_of_lookup_2 in Hi.
    rewrite (refresh_backups_listed fs bd old _ Hd Hls) in Hi.
    apply list_elem_of_filter in Hi as [_ Hi]. by rewrite sorted_reverse_perm in Hi.
  - intros rd c Hent. unfold r, restore_selected_backup. rewrite Hi. simpl.
    fold backups_dir. rewrite Hfile, Hent. simpl.
    destruct (bool_decide (dest = "")); [by eauto|].
    destruct yes; simpl; [|by eauto].
    destruct (extractall _ dest) as [e|]; [|by eauto].
    destruct (is_Exception e); by eauto.
  - intros es' Hent. unfold r, restore_selected_backup. rewrite Hi. simpl.
    fold backups_dir. by rewrite Hfile, Hent.
Qed.

(** X13: In an existing directory, [open_checksum_log] hands the checksum log to
    the desktop exactly when the directory has a regular file named
    organized_files_checksum.log; for a missing entry, or a directory of
    that name, it shows the "Not found" box and opens nothing. *)
Theorem open_checksum_log_needs_the_file win32 fs v es :
  let d := strip v in
  let chk := path_join d "organized_files_checksum.log" in
  d ≠ "" →
  lookup_path fs d = Some (Dir es) →
  (∀ rd c, find_entry "organized_files_checksum.log" es = Some (File rd c) →
     open_checksum_log win32 fs v =
       if win32 then [StartFile chk] else [Spawn ["xdg-open"; chk]]) ∧
  ((∀ rd c, find_entry "organized_files_checksum.log" es ≠ Some (File rd c)) →
     open_checksum_log win32 fs v =
       [Basic (ShowError "Not found" ("Checksum log not found: " +:+ chk))]).
Proof.
  intros d chk Hd Hdir.
  assert (isfile fs chk =
            match find_entry "organized_files_checksum.log" es with
            | Some (File _ _) => true
            | _ => false
            end) as Hfile.
  { unfold isfile, chk.
    by rewrite (lookup_path_join fs d "organized_files_checksum.log" es). }
  unfold open_checksum_log. fold d chk.
  rewrite bool_decide_eq_false_2 by done. rewrite Hfile.
  split.
  - by intros rd c ->.
  - intros Hno. destruct (find_entry _ es) as [[rd c|]|]; try done.
    by destruct (Hno rd c).
Qed.

(** ** Live Log Tailer over many ticks *)

Lemma tail_loop_monotone fs l acc p :
  (default 0 (acc.2 !! p) ≤ default 0 ((foldl (tail_one fs) acc l).2 !! p))%nat.
Proof.
  revert acc. induction l as [|q l IH]; intros acc; simpl; [done|].
  etrans; [|apply IH]. unfold tail_one.
  destruct (read_file fs q) as [c|]; simpl; [|done].
  destruct (decide (q = p)) as [->|Hq].
  - rewrite lookup_insert_eq. simpl. lia.
  - by rewrite lookup_insert_ne.
Qed.

(** X14: The recorded offset of a path never decreases, whatever happens to the
    files between the ticks: they may grow, shrink, vanish or come back. *)
Theorem tail_offsets_never_decrease fss t p :
  (offset_of t p ≤ offset_of (tail_ticks fss t) p)%nat.
Proof.
  revert t. induction fss as [|fs fss IH]; intros t; [done|].
  etrans; [|apply (IH (_do_tail fs t).1)].
  unfold _do_tail, offset_of. destruct (_live_logs_running t); simpl; [|done].
  apply (tail_loop_monotone fs (_live_log_paths t) ([], _tail_positions t) p).
Qed.

Lemma concat_text_cons d ds : concat_text (d :: ds) = d +:+ concat_text ds.
Proof. by rewrite <-!text_of_chunks. Qed.

Lemma tail_ticks_grown p ds fss t c :
  _live_logs_running t = true →
  _live_log_paths t = [p] →
  offset_of t p = String.length c →
  Forall2 (λ fs c', read_file fs p = Some c') fss (grown c ds) →
  text_logs (tail_ticks fss t) =
    text_logs t +:+ shown_sections p (universal_newlines <$> ds) ∧
  offset_of (tail_ticks fss t) p = String.length (c +:+ concat_text ds).
Proof.
  revert fss t c. induction ds as [|d ds IH]; intros fss t c Hr Hpaths Hoff Hall.
  - apply Forall2_nil_inv_r in Hall as ->. simpl.
    by rewrite !str_app_nil_r.
  - simpl in Hall. apply Forall2_cons_inv_r in Hall as (fs & fss' & Hfs & Hall & ->).
    change (tail_ticks (fs :: fss') t) with (tail_ticks fss' (_do_tail fs t).1).
    assert (_live_logs_running (_do_tail fs t).1 = true) as Hr1
      by by rewrite do_tail_flag.
    assert (_live_log_paths (_do_tail fs t).1 = [p]) as Hp1
      by by rewrite do_tail_paths.
    assert (offset_of (_do_tail fs t).1 p = String.length (c +:+ d)) as Hoff1.
    { rewrite (do_tail_offset fs t p (c +:+ d)) by done.
      rewrite Hoff, str_length_app. lia. }
    destruct (IH fss' (_do_tail fs t).1 (c +:+ d) Hr1 Hp1 Hoff1 Hall)
      as [Htext Hoffset].
    rewrite Htext, Hoffset, (do_tail_single fs t p (c +:+ d)) by done.
    rewrite Hoff, read_text_app, concat_text_cons, fmap_cons. simpl.
    by rewrite !str_app_assoc.
Qed.

(** X15: A log file that only grows is shown piece by piece, each piece
    once and in order: when tailing starts on a file holding [c0] and the
    file has grown by one piece of [ds] before each following tick, the
    display holds, in order, one section with the text of [c0] and one
    section with the text of each piece (none for a tick that found nothing
    new), and the recorded offset is the length of the whole file.  The text
    of a piece is the piece as text mode reads it on its tick, with CRLF and
    CR as LF; a CRLF that the writer had only half written at a tick is
    therefore shown as two line breaks. *)
Theorem growing_log_is_shown_once_in_order fs0 fss t p c0 (ds : list string) :
  strip (log_dir_var t) ≠ "" →
  log_paths_at_start fs0 t = [p] →
  read_file fs0 p = Some c0 →
  Forall2 (λ fs c, read_file fs p = Some c) fss (grown c0 ds) →
  text_logs (tail_ticks fss (start_live_logs fs0 t).1) =
    shown_sections p (universal_newlines <$> (c0 :: ds)) ∧
  offset_of (tail_ticks fss (start_live_logs fs0 t).1) p =
    String.length (c0 +:+ concat_text ds).
Proof.
  intros Hd Hpaths Hc0 Hall.
  rewrite start_live_logs_tailing; [|done|by rewrite Hpaths].
  rewrite Hpaths. set (t0 := mk_logs_tab _ _ _ _ _).
  assert (offset_of t0 p = 0%nat) as H0 by apply (zero_positions_default [p]).
  assert (_live_logs_running (_do_tail fs0 t0).1 = true) as Hr
    by by rewrite do_tail_flag.
  assert (_live_log_paths (_do_tail fs0 t0).1 = [p]) as Hp
    by by rewrite do_tail_paths.
  assert (offset_of (_do_tail fs0 t0).1 p = String.length c0) as Hoff0.
  { rewrite (do_tail_offset fs0 t0 p c0) by done. rewrite H0. lia. }
  destruct (tail_ticks_grown p ds fss (_do_tail fs0 t0).1 c0 Hr Hp Hoff0 Hall)
    as [Htext Hoff].
  split; [|done]. rewrite Htext, (do_tail_single fs0 t0 p c0) by done.
  by rewrite H0, read_text_0, fmap_cons.
Qed.

(** ** The tick chains of the tailer *)

Lemma fire_stopped fs s :
  _live_logs_running (tab s) = false →
  fire fs s = mk_tailer (tab s) (pred (timers s)).
Proof.
  intros Hr. unfold fire, _do_tail. rewrite Hr. destruct s as [t [|n]]; simpl; [done|].
  by rewrite Nat.add_0_r.
Qed.

Lemma fire_running fs s :
  _live_logs_running (tab s) = true →
  timers (fire fs s) = timers s ∧ _live_logs_running (tab (fire fs s)) = true.
Proof.
  intros Hr. unfold fire. destruct (timers s) as [|n] eqn:Hn; [by rewrite Hn|].
  simpl. rewrite do_tail_flag, do_tail_running by done. simpl.
  split; [|done]. unfold scheduled. simpl. lia.
Qed.

Lemma fires_running fss s :
  _live_logs_running (tab s) = true →
  timers (fires fss s) = timers s ∧ _live_logs_running (tab (fires fss s)) = true.
Proof.
  revert s. induction fss as [|fs fss IH]; intros s Hr; [done|].
  destruct (fire_running fs s Hr) as [Ht Hr'].
  destruct (IH (fire fs s) Hr') as [Ht' Hr'']. simpl. fold (fires fss (fire fs s)).
  by rewrite Ht', Ht.
Qed.

(** X16: After Stop, each callback still held by the toolkit comes due once and
    does nothing: it reads no file, changes neither the display nor the
    offsets, and schedules no successor, so the chains die out one firing
    each. *)
Theorem stop_lets_pending_ticks_die fss s :
  tab (fires fss (press_stop s)) = stop_live_logs (tab s) ∧
  timers (fires fss (press_stop s)) = (timers s - length fss)%nat.
Proof.
  assert (∀ s', _live_logs_running (tab s') = false →
            tab (fires fss s') = tab s' ∧
            timers (fires fss s') = (timers s' - length fss)%nat) as Hgen.
  { induction fss as [|fs fss IH]; intros s' Hr; simpl; [split; [done|lia]|].
    fold (fires fss (fire fs s')). rewrite (fire_stopped fs s' Hr).
    destruct (IH (mk_tailer (tab s') (pred (timers s'))) Hr) as [-> ->].
    simpl. split; [done|lia]. }
  by apply (Hgen (press_stop s)).
Qed.

(** X17: Stop only clears the flag, it cancels no held callback; and every
    successful Start schedules a chain of its own.  So a Start that finds
    [k] callbacks held (after a Stop whose last tick has not come due yet,
    or while the tailer is running) leaves [k + 1] chains, and each of them
    keeps rescheduling itself for as long as the tailer runs. *)
Theorem start_adds_a_tick_chain fs0 fss s :
  strip (log_dir_var (tab s)) ≠ "" →
  log_paths_at_start fs0 (tab s) ≠ [] →
  timers (fires fss (press_start fs0 s)) = (timers s + 1)%nat ∧
  timers (fires fss (press_start fs0 (press_stop s))) = (timers s + 1)%nat ∧
  _live_logs_running (tab (fires fss (press_start fs0 (press_stop s)))) = true.
Proof.
  intros Hd Hpaths.
  assert (∀ s', log_dir_var (tab s') = log_dir_var (tab s) →
            timers (press_start fs0 s') = (timers s' + 1)%nat ∧
            _live_logs_running (tab (press_start fs0 s')) = true) as Hstart.
  { intros s' Hdir. unfold press_start.
    assert (log_paths_at_start fs0 (tab s') = log_paths_at_start fs0 (tab s)) as Hsame
      by (unfold log_paths_at_start; by rewrite Hdir).
    rewrite start_live_logs_tailing by (by rewrite ?Hdir, ?Hsame).
    rewrite do_tail_running by done. simpl. done. }
  destruct (Hstart s eq_refl) as [Ht Hr].
  destruct (Hstart (press_stop s) eq_refl) as [Ht' Hr'].
  destruct (fires_running fss _ Hr) as [-> _].
  destruct (fires_running fss _ Hr') as [-> ->].
  done.
Qed.

(** ** The further properties at concrete inputs *)

Lemma runner_exception_never_completes_witness :
  polling (run [WorkerPut; Tick; Tick; ClearOutput; Tick]
             (_background_run_and_stream Popen_not_executable organize_cmd "")) = true.
Proof.
  exact (proj1 (runner_exception_never_completes Popen_not_executable organize_cmd
                  (mk_exn PermissionError
                     "[Errno 13] Permission denied: '/home/user/organize_files.sh'")
                  "" [WorkerPut; Tick; Tick; ClearOutput; Tick] eq_refl)).
Defined.

Lemma poll_in_two_runs_witness :
  poll ([Chunk "a"; Sentinel] ++ [Chunk "b"; RC 0]) "" [] =
    poll ((poll [Chunk "a"; Sentinel] "" []).1.1.1 ++ [Chunk "b"; RC 0])
      (poll [Chunk "a"; Sentinel] "" []).1.1.2 (poll [Chunk "a"; Sentinel] "" []).1.2.
Proof.
  exact (poll_in_two_runs [Chunk "a"; Sentinel] [Chunk "b"; RC 0] "" [] eq_refl).
Defined.

Lemma drain_is_over_after_completion_witness :
  let s := run [WorkerPut; WorkerPut; WorkerPut; WorkerPut; Tick]
             (_background_run_and_stream Popen_two_lines organize_cmd "") in
  events (run [Tick; WorkerPut; Tick] s) = events s.
Proof.
  intros s.
  exact (proj1 (proj2 (drain_is_over_after_completion [Tick; WorkerPut; Tick] s eq_refl))).
Defined.

Lemma organizer_run_locks_then_unlocks_witness :
  let r := run_organizer "/home/user" fs_home organizer_tab_ready in
  let cmd := ["/home/user/organize_files.sh"; "/home/user/in"; "/home/user/out/sorted"] in
  let s := run [WorkerPut; Tick; WorkerPut; WorkerPut; WorkerPut; Tick]
             (_background_run_and_stream Popen_two_lines cmd (text_out (res_state r))) in
  let t' := foldl organizer_on_event (res_state r) (events s) in
  run_btn_enabled (res_state r) = false ∧
  run_btn_enabled t' = true ∧
  status_var t' = "Organizer completed successfully".
Proof.
  intros r cmd s t'.
  assert (ThreadStart cmd ∈ res_effects r) as Hlaunch
    by (vm_compute; repeat constructor).
  destruct (organizer_run_locks_then_unlocks "/home/user" Popen_two_lines fs_home
              organizer_tab_ready ["moved a.txt" +:+ nl; "moved b.txt" +:+ nl] 0
              [WorkerPut; Tick; WorkerPut; WorkerPut; WorkerPut; Tick]
              Hlaunch eq_refl) as [(Hlocked & _) [Hdone _]].
  destruct (Hdone eq_refl) as (Hbtn & _ & Hstatus & _).
  split; [exact Hlocked|]. split; [exact Hbtn|exact Hstatus].
Defined.

Lemma run_integrity_launches_iff_directory_witness :
  (run_integrity "/home/user" fs_home integrity_tab_ready).2 =
    [ThreadStart ["/home/user/verify_integrity.sh"; "/home/user/in"]] ∧
  text_verify (run_integrity "/home/user" fs_home integrity_tab_ready).1 = "".
Proof.
  destruct (run_integrity_launches_iff_directory "/home/user" fs_home
              integrity_tab_ready) as (_ & Hok & _).
  assert (strip (verify_dir_var integrity_tab_ready) ≠ "") as Hd
    by (vm_compute; discriminate).
  destruct (Hok Hd eq_refl) as (Heff & _ & _ & Htext & _).
  split; [exact Heff|exact Htext].
Defined.

Lemma missing_verify_script_reads_as_failed_check_witness :
  let r := run_integrity "/home/user" fs_home integrity_tab_ready in
  let s := run [WorkerPut; WorkerPut; WorkerPut; Tick]
             (_background_run_and_stream Popen_missing
                ["/home/user/verify_integrity.sh"; "/home/user/in"] (text_verify r.1)) in
  integrity_status (foldl integrity_on_event (r.1, []) (events s)).1 = "Integrity FAILED".
Proof.
  intros r s.
  assert (strip (verify_dir_var integrity_tab_ready) ≠ "") as Hd
    by (vm_compute; discriminate).
  exact (proj1 (missing_verify_script_reads_as_failed_check "/home/user" Popen_missing
                  fs_home integrity_tab_ready
                  (mk_exn FileNotFoundError "[Errno 2] No such file or directory")
                  [WorkerPut; WorkerPut; WorkerPut; Tick]
                  Hd eq_refl eq_refl eq_refl eq_refl)).
Defined.

Lemma run_organizer_keeps_existing_files_witness :
  read_file (res_fs (run_organizer "/home/user" fs_home organizer_tab_ready))
    "/home/user/in/a.txt" = Some "a".
Proof.
  destruct (run_organizer_keeps_existing_files "/home/user" fs_home
              organizer_tab_ready "/home/user/in/a.txt") as (Hread & _).
  exact (Hread "a" eq_refl).
Defined.

Lemma refresh_backups_ignores_listing_order_witness :
  refresh_backups fs_backups "/data" [] =
    refresh_backups fs_backups_reordered "/data" ["stale"].
Proof.
  assert (strip "/data" ≠ "") as Hd by (vm_compute; discriminate).
  apply (refresh_backups_ignores_listing_order fs_backups fs_backups_reordered "/data"
           [] ["stale"]
           ["backup_2023.zip"; "notes.txt"; "backup_2024.zip"]
           ["notes.txt"; "backup_2024.zip"; "backup_2023.zip"] Hd eq_refl eq_refl).
  apply (Permutation_cons_append ["notes.txt"; "backup_2024.zip"] "backup_2023.zip").
Defined.

Lemma restore_extracts_only_after_confirmation_witness :
  (restore_selected_backup fs_backups_mixed "/data" ["old.zip"; "backup_2024.zip"] [1]
     "/tmp/restore" true extractall_corrupt).2 = None ∧
  last (restore_selected_backup fs_backups_mixed "/data" ["old.zip"; "backup_2024.zip"]
          [1] "/tmp/restore" true extractall_corrupt).1 =
    Some (Basic (ShowError "Restore failed" "Failed to restore: File is not a zip file")).
Proof.
  destruct (restore_extracts_only_after_confirmation fs_backups_mixed "/data"
              ["old.zip"; "backup_2024.zip"] [1] "/tmp/restore" true extractall_corrupt)
    as (_ & _ & _ & Hfail).
  assert ("/tmp/restore" ≠ "") as Hdest by discriminate.
  exact (Hfail 1 [] (mk_exn ValueError "File is not a zip file")
           eq_refl eq_refl Hdest eq_refl eq_refl eq_refl).
Defined.

Lemma listed_entry_restores_only_if_regular_file_witness :
  refresh_backups fs_backups_mixed "/data" [] = ["old.zip"; "backup_2024.zip"] ∧
  restore_selected_backup fs_backups_mixed "/data"
    (refresh_backups fs_backups_mixed "/data" []) [0] "/tmp/restore" true extractall_ok =
    ([Basic (ShowError "Not found" "/data/backups/old.zip")], None).
Proof.
  split; [reflexivity|].
  assert (strip "/data" ≠ "") as Hd by (vm_compute; discriminate).
  assert ("old.zip" ≠ "") as Hne by discriminate.
  destruct (listed_entry_restores_only_if_regular_file fs_backups_mixed "/data" [] 0 []
              "old.zip"
              [("backup_2024.zip", File true "PK"); ("old.zip", Dir [])]
              "/tmp/restore" true extractall_ok Hd eq_refl eq_refl eq_refl Hne)
    as (_ & _ & Hdir).
  exact (Hdir [] eq_refl).
Defined.

Lemma open_checksum_log_needs_the_file_witness :
  open_checksum_log false fs_backups_mixed " /data" =
    [Spawn ["xdg-open"; "/data/organized_files_checksum.log"]] ∧
  open_checksum_log false fs_backups "/data" =
    [Basic (ShowError "Not found"
              "Checksum log not found: /data/organized_files_checksum.log")].
Proof.
  assert (strip " /data" ≠ "") as Hd by (vm_compute; discriminate).
  assert (strip "/data" ≠ "") as Hd' by (vm_compute; discriminate).
  destruct (open_checksum_log_needs_the_file false fs_backups_mixed " /data"
              [("backups",
                Dir [("backup_2024.zip", File true "PK"); ("old.zip", Dir [])]);
               ("organized_files_checksum.log", File true "")] Hd eq_refl)
    as [Hopen _].
  destruct (open_checksum_log_needs_the_file false fs_backups "/data"
              [("backups",
                Dir [("backup_2023.zip", File true "");
                     ("notes.txt", File true "");
                     ("backup_2024.zip", File true "")])] Hd' eq_refl)
    as [_ Hmissing].
  split; [exact (Hopen true "" eq_refl)|].
  apply Hmissing. intros rd c. discriminate.
Defined.

Lemma growing_log_is_shown_once_in_order_witness :
  text_logs
    (tail_ticks [fs_with_log "XY"; fs_with_log "XY"; fs_with_log "XYZ"]
       (start_live_logs (fs_with_log "X") logs_tab_idle).1) =
    shown_sections "/logs/organizer.log" (universal_newlines <$> ["X"; "Y"; ""; "Z"]) ∧
  offset_of
    (tail_ticks [fs_with_log "XY"; fs_with_log "XY"; fs_with_log "XYZ"]
       (start_live_logs (fs_with_log "X") logs_tab_idle).1) "/logs/organizer.log" =
    String.length ("X" +:+ concat_text ["Y"; ""; "Z"]).
Proof.
  assert (strip (log_dir_var logs_tab_idle) ≠ "") as Hd by (vm_compute; discriminate).
  apply (growing_log_is_shown_once_in_order (fs_with_log "X")
           [fs_with_log "XY"; fs_with_log "XY"; fs_with_log "XYZ"] logs_tab_idle
           "/logs/organizer.log" "X" ["Y"; ""; "Z"] Hd eq_refl eq_refl).
  repeat constructor.
Defined.

Lemma start_adds_a_tick_chain_witness :
  timers (fires [fs_with_log "XY"; fs_with_log "XYZ"]
            (press_start (fs_with_log "X")
               (press_stop (press_start (fs_with_log "X") tailer_idle)))) = 2%nat.
Proof.
  assert (strip (log_dir_var (tab (press_start (fs_with_log "X") tailer_idle))) ≠ "")
    as Hd by (vm_compute; discriminate).
  assert (log_paths_at_start (fs_with_log "X")
            (tab (press_start (fs_with_log "X") tailer_idle)) ≠ [])
    as Hpaths by (vm_compute; discriminate).
  exact (proj1 (proj2 (start_adds_a_tick_chain (fs_with_log "X")
                         [fs_with_log "XY"; fs_with_log "XYZ"]
                         (press_start (fs_with_log "X") tailer_idle) Hd Hpaths))).
Defined.

(** ** Clearing the log view *)



(** ** Line endings, at concrete contents *)

(** The seven bytes X CR LF Y CR Z LF are shown as X LF Y LF Z LF, and the
    offset recorded is 7. *)
Lemma tail_shows_translated_line_endings :
  let t := (start_live_logs (fs_with_log log_mixed_endings) logs_tab_idle).1 in
  text_logs t =
    section_of "/logs/organizer.log" ("X" +:+ nl +:+ "Y" +:+ nl +:+ "Z" +:+ nl) ∧
  offset_of t "/logs/organizer.log" = 7%nat.
Proof. by vm_compute. Qed.

(** A CRLF of which only the CR is in the file at one tick is shown as two
    line breaks: "A" and a line break at the first tick, a line break and
    "B" at the second. *)
Lemma tail_shows_split_crlf_twice :
  let t1 := (start_live_logs (fs_with_log log_half_line) logs_tab_idle).1 in
  let t2 := (_do_tail (fs_with_log (log_half_line +:+ log_rest_of_line)) t1).1 in
  text_logs t1 = section_of "/logs/organizer.log" ("A" +:+ nl) ∧
  offset_of t1 "/logs/organizer.log" = 2%nat ∧
  text_logs t2 =
    section_of "/logs/organizer.log" ("A" +:+ nl) +:+
    section_of "/logs/organizer.log" (nl +:+ "B") ∧
  offset_of t2 "/logs/organizer.log" = 4%nat.
Proof. by vm_compute. Qed.
